(** * SLIP-10 / Ed25519 key derivation of the web3-wallet repository

    A shallow embedding of [src/ed25519Slip10.ts] and [src/ed25519Slip10.js]
    and the properties of their [parsePath] and [derivePath].

    Layout:
    - [ES]: the ECMAScript built-ins the two files call (strings as lists of
      UTF-16 code units, [parseInt], the 32-bit integer operators, typed
      arrays, exceptions);
    - [Noble]: HMAC (RFC 2104) over SHA-512 (FIPS 180-4), the function the
      two files import from [@noble/hashes];
    - [Eff]: results, exceptions and the log of the HMAC calls made;
    - [TS] and [JS]: the two source files, each over an arbitrary
      [hmac_sha512];
    - [Spec]: the specification's own definitions, for comparison;
    - [Code]: closed forms of what the code computes;
    - the lemmas and the theorems C1 to C10. *)

From Stdlib Require Import String Ascii ZArith List Bool Lia.
From Stdlib Require Import Strings.Byte.
Import ListNotations.
Local Open Scope Z_scope.

(** ** ECMAScript values and built-ins *)

Module ES.

(** A JavaScript string is a sequence of UTF-16 code units. *)
Definition jsstring : Type := list Z.

(** The string literal [s] of the source, one code unit per character. *)
Definition js (s : string) : jsstring :=
  map (fun a => Z.of_N (N_of_ascii a)) (list_ascii_of_string s).

(** A [Uint8Array]. *)
Definition bytes : Type := list byte.

Definition byte_to_Z (b : byte) : Z := Z.of_N (Byte.to_N b).

(** ToUint8: the conversion performed by a store into a [Uint8Array]. *)
Definition ToUint8 (z : Z) : byte :=
  match Byte.of_N (Z.to_N (z mod 256)) with
  | Some b => b
  | None => x00
  end.

(** [new TextEncoder().encode(s)] for a string of ASCII characters. *)
Definition TextEncoder_encode (s : jsstring) : bytes := map ToUint8 s.

(** The Number values that [parseInt] and the integer operators produce:
    integer-valued doubles, the infinities and NaN.  (-0 is identified with
    +0: the source only passes these values to [Number.isNaN] and to the
    32-bit operators, which do not tell them apart.) *)
Inductive Number : Type :=
| NaN
| Infinity (negative : bool)
| Finite (value : Z).

Coercion Finite : Z >-> Number.

Definition Number_isNaN (x : Number) : bool :=
  match x with NaN => true | _ => false end.

(** The double nearest to the non-negative integer [m] (round to nearest,
    ties to even, 53 bits of significand), still as an integer. *)
Definition round53 (m : Z) : Z :=
  if m <? 2 ^ 53 then m
  else
    let e := Z.log2 m - 52 in
    let q := Z.shiftr m e in
    let r := Z.land m (Z.ones e) in
    let half := 2 ^ (e - 1) in
    let q' := if (half <? r) || ((r =? half) && Z.odd q) then q + 1 else q in
    Z.shiftl q' e.

(** The Number value for the integer [z]; magnitudes that round to 2^1024 or
    more overflow to an infinity. *)
Definition Number_of_Z (z : Z) : Number :=
  let a := round53 (Z.abs z) in
  if 2 ^ 1024 <=? a then Infinity (z <? 0) else Finite (Z.sgn z * a).

(** ToInt32 and ToUint32. *)
Definition ToUint32 (x : Number) : Z :=
  match x with
  | Finite z => z mod 2 ^ 32
  | _ => 0
  end.

Definition ToInt32 (x : Number) : Z :=
  let m := ToUint32 x in
  if 2 ^ 31 <=? m then m - 2 ^ 32 else m.

(** [x | y], [x & y] and [x >>> y]. *)
Definition bitor (x y : Number) : Z := Z.lor (ToInt32 x) (ToInt32 y).
Definition bitand (x y : Number) : Z := Z.land (ToInt32 x) (ToInt32 y).
Definition ushr (x y : Number) : Z :=
  Z.shiftr (ToUint32 x) (Z.land (ToUint32 y) 31).

(** *** Strings *)

Fixpoint code_units_eqb (s t : jsstring) : bool :=
  match s, t with
  | [], [] => true
  | c :: s', d :: t' => (c =? d) && code_units_eqb s' t'
  | _, _ => false
  end.

(** [list.slice(start, end)] of strings, arrays and typed arrays; [None] is
    an omitted [end]. Negative positions count from the end. *)
Definition slice {A : Type} (l : list A) (start : Z) (stop : option Z)
  : list A :=
  let len := Z.of_nat (length l) in
  let clamp (i : Z) := if i <? 0 then Z.max (len + i) 0 else Z.min i len in
  let from := clamp start in
  let to := match stop with Some e => clamp e | None => len end in
  firstn (Z.to_nat (Z.max (to - from) 0)) (skipn (Z.to_nat from) l).

(** [s.startsWith(search)] and [s.endsWith(search)]. *)
Definition startsWith (s search : jsstring) : bool :=
  code_units_eqb (firstn (length search) s) search.

Definition endsWith (s search : jsstring) : bool :=
  if (length s <? length search)%nat then false
  else code_units_eqb (skipn (length s - length search) s) search.

(** [s.split(sep)] for a separator of one code unit. *)
Fixpoint split (sep : Z) (s : jsstring) : list jsstring :=
  match s with
  | [] => [[]]
  | c :: s' =>
      if c =? sep then [] :: split sep s'
      else match split sep s' with
           | [] => [[c]]
           | seg :: segs => (c :: seg) :: segs
           end
  end.

(** [s.replace(/[...]$/, '')]: a pattern made of one character class
    followed by the end-of-input assertion, no flags, empty replacement.
    The matcher tries the positions from left to right; the class consumes
    one code unit and [$] holds only when nothing is left. *)
Fixpoint replace_class_at_end (class : Z -> bool) (s : jsstring)
  : jsstring :=
  match s with
  | [] => []
  | c :: rest =>
      if class c && match rest with [] => true | _ => false end
      then rest
      else c :: replace_class_at_end class rest
  end.

(** WhiteSpace and LineTerminator code units, trimmed by [parseInt]. *)
Definition isStrWhiteSpaceChar (c : Z) : bool :=
  existsb (Z.eqb c)
    [0x09; 0x0A; 0x0B; 0x0C; 0x0D; 0x20; 0xA0; 0x1680; 0x2028; 0x2029;
     0x202F; 0x205F; 0x3000; 0xFEFF]
  || ((0x2000 <=? c) && (c <=? 0x200A)).

Fixpoint trimStart (s : jsstring) : jsstring :=
  match s with
  | c :: s' => if isStrWhiteSpaceChar c then trimStart s' else s
  | [] => []
  end.

(** The value of a code unit as a digit, letters counting from 10. *)
Definition digitValue (c : Z) : option Z :=
  if (0x30 <=? c) && (c <=? 0x39) then Some (c - 0x30)
  else if (0x61 <=? c) && (c <=? 0x7A) then Some (c - 0x61 + 10)
  else if (0x41 <=? c) && (c <=? 0x5A) then Some (c - 0x41 + 10)
  else None.

Definition isRadixDigit (R c : Z) : bool :=
  match digitValue c with
  | Some d => d <? R
  | None => false
  end.

Fixpoint takeDigits (R : Z) (s : jsstring) : jsstring :=
  match s with
  | c :: s' => if isRadixDigit R c then c :: takeDigits R s' else []
  | [] => []
  end.

Definition digitsValue (R : Z) (digits : jsstring) : Z :=
  fold_left
    (fun acc c => acc * R + match digitValue c with Some d => d | None => 0 end)
    digits 0.

(** [parseInt(string, radix)].  The integer denoted by the digits is
    converted to the nearest double. *)
Definition parseInt (inputString : jsstring) (radix : Number) : Number :=
  let str := trimStart inputString in
  let sign := match str with
              | c :: _ => if c =? 0x2D then -1 else 1
              | [] => 1
              end in
  let str := match str with
             | c :: str' => if (c =? 0x2B) || (c =? 0x2D) then str' else str
             | [] => str
             end in
  let R := ToInt32 radix in
  if negb (R =? 0) && ((R <? 2) || (36 <? R)) then NaN
  else
    let stripPrefix := (R =? 0) || (R =? 16) in
    let R := if R =? 0 then 10 else R in
    let hasPrefix :=
      stripPrefix && (startsWith str (js "0x") || startsWith str (js "0X")) in
    let str := if hasPrefix then skipn 2 str else str in
    let R := if hasPrefix then 16 else R in
    let digits := takeDigits R str in
    match digits with
    | [] => NaN
    | _ => Number_of_Z (sign * digitsValue R digits)
    end.

(** *** Typed arrays *)

(** What the two files can throw.  The first two are the [Error]s raised by
    [parsePath], with the messages ['Path must start with "m"'] and
    ['Invalid path segment: ' + seg]; [RangeError] is what
    [TypedArray.prototype.set] and [DataView.prototype.setUint32] raise out
    of bounds. *)
Inductive Error : Type :=
| InvalidPathFormat
| InvalidPathSegment (seg : jsstring)
| RangeError.

(** Computations that return or throw. *)
Definition Exn (A : Type) : Type := (Error + A)%type.

Definition Exn_bind {A B : Type} (m : Exn A) (f : A -> Exn B) : Exn B :=
  match m with
  | inl e => inl e
  | inr a => f a
  end.

(** [array.map(f)] with a callback that may throw: the elements are visited
    in order and the first exception ends the traversal. *)
Fixpoint Array_map {A B : Type} (f : A -> Exn B) (l : list A)
  : Exn (list B) :=
  match l with
  | [] => inr []
  | x :: l' =>
      Exn_bind (f x) (fun y =>
      Exn_bind (Array_map f l') (fun ys => inr (y :: ys)))
  end.

(** [new Uint8Array(n)]: [n] zero bytes. *)
Definition Uint8Array_new (n : nat) : bytes := repeat x00 n.

(** [target.set(source, offset)]. *)
Definition Uint8Array_set (target source : bytes) (offset : nat)
  : Exn bytes :=
  if (length target <? length source + offset)%nat then inl RangeError
  else inr (firstn offset target ++ source
            ++ skipn (offset + length source) target).

(** [a[i] = v] on a [Uint8Array]: a store outside the array is ignored. *)
Fixpoint Uint8Array_store (a : bytes) (i : nat) (v : Z) : bytes :=
  match a, i with
  | [], _ => []
  | _ :: a', O => ToUint8 v :: a'
  | b :: a', S i' => b :: Uint8Array_store a' i' v
  end.

(** The four bytes of an unsigned 32-bit value, most significant first. *)
Definition uint32_be (v : Z) : bytes :=
  [ToUint8 (Z.shiftr v 24); ToUint8 (Z.shiftr v 16);
   ToUint8 (Z.shiftr v 8); ToUint8 v].

(** [new DataView(a.buffer).setUint32(byteOffset, value, littleEndian)]. *)
Definition DataView_setUint32 (a : bytes) (byteOffset : nat) (value : Number)
    (littleEndian : bool) : Exn bytes :=
  if (length a <? byteOffset + 4)%nat then inl RangeError
  else
    let raw := uint32_be (ToUint32 value) in
    let raw := if littleEndian then rev raw else raw in
    inr (firstn byteOffset a ++ raw ++ skipn (byteOffset + 4) a).

(** *** Numbers as strings *)

(** The decimal digits of a non-negative integer, most significant first;
    [fuel] bounds their number. *)
Fixpoint decimalDigits_from (fuel : nat) (n : Z) (acc : jsstring)
  : jsstring :=
  match fuel with
  | O => acc
  | Datatypes.S fuel' =>
      let acc' := (0x30 + n mod 10) :: acc in
      if n <? 10 then acc' else decimalDigits_from fuel' (n / 10) acc'
  end.

Definition decimalDigits (n : Z) : jsstring :=
  decimalDigits_from (Datatypes.S (Z.to_nat (Z.log2 n))) n [].

(** The shortest decimal that denotes the double [x], an integer of [d]
    digits at least 2^53: the least [k] for which some [s] of [k] digits
    has [s * 10^(d-k)] round to [x]; of two such [s] the closer to [x], the
    even one when both are as close.  The result is [(s, k, n)], the value
    denoted being [s * 10^(n-k)]. *)
Fixpoint shortestDigits (fuel : nat) (k d x : Z) : Z * Z * Z :=
  match fuel with
  | O => (x, d, d)
  | Datatypes.S fuel' =>
      let p := 10 ^ (d - k) in
      let lo := x / p in
      let hi := lo + 1 in
      let okLo := round53 (lo * p) =? x in
      let okHi := round53 (hi * p) =? x in
      let useHi :=
        okHi && (negb okLo
                 || (hi * p - x <? x - lo * p)
                 || ((hi * p - x =? x - lo * p) && Z.even hi)) in
      if okLo || okHi then
        if useHi then (if hi =? 10 ^ k then (1, 1, d + 1) else (hi, k, d))
        else (lo, k, d)
      else shortestDigits fuel' (k + 1) d x
  end.

(** Number::toString in base 10 of a positive integer-valued double.  Below
    2^53 every integer is a double, and the shortest decimal that denotes
    it is the integer itself. *)
Definition positive_toString (x : Z) : jsstring :=
  if x <? 2 ^ 53 then decimalDigits x
  else
    let d := Z.of_nat (length (decimalDigits x)) in
    let '(s, k, n) := shortestDigits (Z.to_nat d) 1 d x in
    let digits := decimalDigits s in
    if n <=? 21 then digits ++ repeat 0x30 (Z.to_nat (n - k))
    else
      match digits with
      | [] => []
      | first :: rest =>
          (first :: match rest with [] => [] | _ => 0x2E :: rest end)
          ++ js "e+" ++ decimalDigits (n - 1)
      end.

(** [String(x)], as in a template literal [`${x}`]. *)
Definition Number_toString (x : Number) : jsstring :=
  match x with
  | NaN => js "NaN"
  | Infinity negative => if negative then js "-Infinity" else js "Infinity"
  | Finite z =>
      if z <? 0 then 0x2D :: positive_toString (- z) else positive_toString z
  end.

End ES.

(** ** HMAC-SHA512, the import from [@noble/hashes]

    The library is a dependency, not part of the repository.  Its documented
    signature is [hmac(hash, key, message)]: the key comes before the
    message.  The function is HMAC of RFC 2104 over SHA-512 of FIPS 180-4,
    and is modelled from these.  The derivation code below abstracts over
    it; this instance serves to evaluate the code on concrete seeds, and is
    checked below against the first published SLIP-0010 vector. *)

Module Noble.
Import ES.

Definition w64 (z : Z) : Z := Z.land z 0xFFFFFFFFFFFFFFFF.
Definition add64 (x y : Z) : Z := w64 (x + y).
Definition rotr (n x : Z) : Z :=
  Z.lor (Z.shiftr x n) (w64 (Z.shiftl x (64 - n))).

Definition Ch (x y z : Z) : Z := Z.lxor (Z.land x y) (Z.ldiff z x).
Definition Maj (x y z : Z) : Z :=
  Z.lxor (Z.lxor (Z.land x y) (Z.land x z)) (Z.land y z).
Definition Sigma0 (x : Z) : Z :=
  Z.lxor (Z.lxor (rotr 28 x) (rotr 34 x)) (rotr 39 x).
Definition Sigma1 (x : Z) : Z :=
  Z.lxor (Z.lxor (rotr 14 x) (rotr 18 x)) (rotr 41 x).
Definition sigma0 (x : Z) : Z :=
  Z.lxor (Z.lxor (rotr 1 x) (rotr 8 x)) (Z.shiftr x 7).
Definition sigma1 (x : Z) : Z :=
  Z.lxor (Z.lxor (rotr 19 x) (rotr 61 x)) (Z.shiftr x 6).

(** The eighty round constants. *)
Definition K512 : list Z :=
  [
   0x428a2f98d728ae22; 0x7137449123ef65cd; 0xb5c0fbcfec4d3b2f; 0xe9b5dba58189dbbc;
   0x3956c25bf348b538; 0x59f111f1b605d019; 0x923f82a4af194f9b; 0xab1c5ed5da6d8118;
   0xd807aa98a3030242; 0x12835b0145706fbe; 0x243185be4ee4b28c; 0x550c7dc3d5ffb4e2;
   0x72be5d74f27b896f; 0x80deb1fe3b1696b1; 0x9bdc06a725c71235; 0xc19bf174cf692694;
   0xe49b69c19ef14ad2; 0xefbe4786384f25e3; 0x0fc19dc68b8cd5b5; 0x240ca1cc77ac9c65;
   0x2de92c6f592b0275; 0x4a7484aa6ea6e483; 0x5cb0a9dcbd41fbd4; 0x76f988da831153b5;
   0x983e5152ee66dfab; 0xa831c66d2db43210; 0xb00327c898fb213f; 0xbf597fc7beef0ee4;
   0xc6e00bf33da88fc2; 0xd5a79147930aa725; 0x06ca6351e003826f; 0x142929670a0e6e70;
   0x27b70a8546d22ffc; 0x2e1b21385c26c926; 0x4d2c6dfc5ac42aed; 0x53380d139d95b3df;
   0x650a73548baf63de; 0x766a0abb3c77b2a8; 0x81c2c92e47edaee6; 0x92722c851482353b;
   0xa2bfe8a14cf10364; 0xa81a664bbc423001; 0xc24b8b70d0f89791; 0xc76c51a30654be30;
   0xd192e819d6ef5218; 0xd69906245565a910; 0xf40e35855771202a; 0x106aa07032bbd1b8;
   0x19a4c116b8d2d0c8; 0x1e376c085141ab53; 0x2748774cdf8eeb99; 0x34b0bcb5e19b48a8;
   0x391c0cb3c5c95a63; 0x4ed8aa4ae3418acb; 0x5b9cca4f7763e373; 0x682e6ff3d6b2b8a3;
   0x748f82ee5defb2fc; 0x78a5636f43172f60; 0x84c87814a1f0ab72; 0x8cc702081a6439ec;
   0x90befffa23631e28; 0xa4506cebde82bde9; 0xbef9a3f7b2c67915; 0xc67178f2e372532b;
   0xca273eceea26619c; 0xd186b8c721c0c207; 0xeada7dd6cde0eb1e; 0xf57d4f7fee6ed178;
   0x06f067aa72176fba; 0x0a637dc5a2c898a6; 0x113f9804bef90dae; 0x1b710b35131c471b;
   0x28db77f523047d84; 0x32caab7b40c72493; 0x3c9ebe0a15c9bebc; 0x431d67c49c100d4c;
   0x4cc5d4becb3e42b6; 0x597f299cfc657e2a; 0x5fcb6fab3ad6faec; 0x6c44198c4a475817
  ].

(** The eight working variables, and the hash value between blocks. *)
Record State : Type := mkState {
  sa : Z; sb : Z; sc : Z; sd : Z; se : Z; sf : Z; sg : Z; sh : Z
}.

Definition H0 : State :=
  mkState 0x6a09e667f3bcc908 0xbb67ae8584caa73b
          0x3c6ef372fe94f82b 0xa54ff53a5f1d36f1
          0x510e527fade682d1 0x9b05688c2b3e6c1f
          0x1f83d9abfb41bd6b 0x5be0cd19137e2179.

(** Big-endian words. *)
Definition be_bytes (n : nat) (v : Z) : bytes :=
  map (fun i => ToUint8 (Z.shiftr v (8 * Z.of_nat i))) (rev (seq 0 n)).

Definition be_word (bs : bytes) : Z :=
  fold_left (fun acc b => acc * 256 + byte_to_Z b) bs 0.

Fixpoint chunks (fuel size : nat) (bs : bytes) : list bytes :=
  match fuel, bs with
  | O, _ => []
  | _, [] => []
  | S fuel', _ => firstn size bs :: chunks fuel' size (skipn size bs)
  end.

(** The message followed by the bit 1, zeros, and its length in bits on 128
    bits, to a multiple of 128 bytes. *)
Definition pad (msg : bytes) : bytes :=
  let len := Z.of_nat (length msg) in
  let zeros := Z.to_nat ((111 - len) mod 128) in
  msg ++ [x80] ++ repeat x00 zeros ++ be_bytes 16 (8 * len).

(** The message schedule: [window] holds the last sixteen words, oldest
    first. *)
Fixpoint schedule (n : nat) (window : list Z) : list Z :=
  match n with
  | O => []
  | S n' =>
      let w := add64 (add64 (sigma1 (nth 14 window 0)) (nth 9 window 0))
                     (add64 (sigma0 (nth 1 window 0)) (nth 0 window 0)) in
      w :: schedule n' (tl window ++ [w])
  end.

Definition round (s : State) (kw : Z * Z) : State :=
  let '(k, w) := kw in
  let T1 := add64 (add64 (add64 (sh s) (Sigma1 (se s)))
                         (add64 (Ch (se s) (sf s) (sg s)) k)) w in
  let T2 := add64 (Sigma0 (sa s)) (Maj (sa s) (sb s) (sc s)) in
  mkState (add64 T1 T2) (sa s) (sb s) (sc s)
          (add64 (sd s) T1) (se s) (sf s) (sg s).

Definition compress (h : State) (block : bytes) : State :=
  let w16 := map be_word (chunks 16 8 block) in
  let w := w16 ++ schedule 64 w16 in
  let s := fold_left round (combine K512 w) h in
  mkState (add64 (sa h) (sa s)) (add64 (sb h) (sb s))
          (add64 (sc h) (sc s)) (add64 (sd h) (sd s))
          (add64 (se h) (se s)) (add64 (sf h) (sf s))
          (add64 (sg h) (sg s)) (add64 (sh h) (sh s)).

Definition state_bytes (s : State) : bytes :=
  be_bytes 8 (sa s) ++ be_bytes 8 (sb s) ++ be_bytes 8 (sc s)
  ++ be_bytes 8 (sd s) ++ be_bytes 8 (se s) ++ be_bytes 8 (sf s)
  ++ be_bytes 8 (sg s) ++ be_bytes 8 (sh s).

Definition sha512 (msg : bytes) : bytes :=
  let padded := pad msg in
  state_bytes (fold_left compress (chunks (length padded) 128 padded) H0).

(** A hash function as [hmac] receives it. *)
Record Hash : Type := mkHash {
  blockLen : nat;
  outputLen : nat;
  digest : bytes -> bytes
}.

Definition SHA512 : Hash := mkHash 128 64 sha512.

Definition xor_pad (p : byte) (k : bytes) : bytes :=
  map (fun b => ToUint8 (Z.lxor (byte_to_Z b) (byte_to_Z p))) k.

(** [hmac(hash, key, message)]: the second argument is the key and the
    third the message. *)
Definition hmac (hash : Hash) (key message : bytes) : bytes :=
  let k := if (blockLen hash <? length key)%nat then digest hash key
           else key in
  let k := k ++ repeat x00 (blockLen hash - length k) in
  digest hash (xor_pad x5c k ++ digest hash (xor_pad x36 k ++ message)).

(** [hmac(sha512, key, message)]. *)
Definition hmac_sha512 (key message : bytes) : bytes :=
  hmac SHA512 key message.

(** Bytes written in hexadecimal, for test vectors. *)
Fixpoint of_hex (s : string) : bytes :=
  match s with
  | String hi (String lo s') =>
      let v (a : ascii) :=
        match digitValue (Z.of_N (N_of_ascii a)) with
        | Some d => d
        | None => 0
        end in
      ToUint8 (16 * v hi + v lo) :: of_hex s'
  | _ => []
  end.

End Noble.

(** ** The effect of a derivation: a result or an exception, and the HMAC
    computations performed on the way *)

Module Eff.
Import ES.

(** One call [hmac(sha512, key, message)]. *)
Record HmacCall : Type := mkCall {
  call_key : bytes;
  call_message : bytes
}.

(** A computation returns or throws, and leaves the list of the HMAC calls
    it made, in order. When it throws, the calls made before remain. *)
Definition M (A : Type) : Type := (Exn A * list HmacCall)%type.

Definition ret {A : Type} (a : A) : M A := (inr a, []).

Definition lift {A : Type} (r : Exn A) : M A := (r, []).

Definition bind {A B : Type} (m : M A) (f : A -> M B) : M B :=
  match m with
  | (inl e, calls) => (inl e, calls)
  | (inr a, calls) => let '(r, calls') := f a in (r, calls ++ calls')
  end.

Definition result {A : Type} (m : M A) : Exn A := fst m.
Definition hmac_calls {A : Type} (m : M A) : list HmacCall := snd m.

End Eff.

Notation "x <- m ;; k" := (Eff.bind m (fun x => k))
  (at level 61, m at next level, right associativity).

(** The object [{ key, chainCode }] that [derivePath] returns. *)
Record ExtendedKey : Type := mkExtendedKey {
  key : ES.bytes;
  chainCode : ES.bytes
}.

(** ** src/ed25519Slip10.ts *)

Module TS.
Import ES Eff.

Definition SEED_KEY : bytes := TextEncoder_encode (js "ed25519 seed").

(** The callback of [map] in [parsePath]. *)
Definition parseSegment (seg : jsstring) : Exn Z :=
  let idx :=
    parseInt (replace_class_at_end
                (fun c => (c =? 0x27) || (c =? 0x68)) seg) 10 in
  if Number_isNaN idx then inl (InvalidPathSegment seg)
  else inr (ushr (bitor idx 0x80000000) 0).

Definition parsePath (path : jsstring) : Exn (list Z) :=
  if negb (startsWith path (js "m")) then inl InvalidPathFormat
  else Array_map parseSegment (slice (split 0x2F path) 1 None).

Section Derive.

(** [hmac(sha512, key, message)] of [@noble/hashes]. *)
Variable hmac_sha512 : bytes -> bytes -> bytes.

Definition hmac (k message : bytes) : M bytes :=
  (inr (hmac_sha512 k message), [mkCall k message]).

(** [for (const x of xs) body], the body acting on the variables [s]. *)
Fixpoint for_of {A S : Type} (xs : list A) (s : S) (body : A -> S -> M S)
  : M S :=
  match xs with
  | [] => ret s
  | x :: xs' => s' <- body x s ;; for_of xs' s' body
  end.

(** The body of the loop of [derivePath], on the variables [key] and
    [chainCode]. *)
Definition loop_body (index : Z) (s : ExtendedKey) : M ExtendedKey :=
  let buf := Uint8Array_new 37 in
  buf <- lift (Uint8Array_set buf (key s) 1) ;;
  buf <- lift (DataView_setUint32 buf 33 index false) ;;
  I <- hmac buf (chainCode s) ;;
  ret (mkExtendedKey (slice I 0 (Some 32)) (slice I 32 None)).

Definition derivePath (seed : bytes) (path : jsstring) : M ExtendedKey :=
  master <- hmac seed SEED_KEY ;;
  let s := mkExtendedKey (slice master 0 (Some 32)) (slice master 32 None) in
  indices <- lift (parsePath path) ;;
  s <- for_of indices s loop_body ;;
  ret s.

End Derive.
End TS.

(** ** src/ed25519Slip10.js *)

Module JS.
Import ES Eff.

Definition ED25519_SEED : bytes := TextEncoder_encode (js "ed25519 seed").

Definition parseSegment (p : jsstring) : Exn Z :=
  let hardened := endsWith p (js "'") || endsWith p (js "h") in
  let index := parseInt (if hardened then slice p 0 (Some (-1)) else p) 10 in
  if Number_isNaN index then inl (InvalidPathSegment p)
  else inr (ushr (bitor index 0x80000000) 0).

Definition parsePath (path : jsstring) : Exn (list Z) :=
  if negb (startsWith path (js "m")) then inl InvalidPathFormat
  else
    let parts := slice (split 0x2F path) 1 None in
    Array_map parseSegment parts.

Section Derive.

(** [hmac(sha512, key, message)] of [@noble/hashes]. *)
Variable hmac_sha512 : bytes -> bytes -> bytes.

Definition hmac (k message : bytes) : M bytes :=
  (inr (hmac_sha512 k message), [mkCall k message]).

(** [function hmacSha512(key, data) { return hmac(sha512, data, key) }] *)
Definition hmacSha512 (key data : bytes) : M bytes := hmac data key.

(** [for (let i = start; i < n; i++) body]: [count] is [n - start]. *)
Fixpoint for_range {S : Type} (count i : nat) (s : S)
    (body : nat -> S -> M S) : M S :=
  match count with
  | O => ret s
  | Datatypes.S count' => s' <- body i s ;; for_range count' (i + 1) s' body
  end.

(** The body of the loop of [derivePath], on the variables [privKey] and
    [chainCode]; [indices[i]] is read inside the bounds of the array. *)
Definition loop_body (indices : list Z) (i : nat) (s : ExtendedKey)
  : M ExtendedKey :=
  let privKey := key s in
  let index := nth i indices 0 in
  let data := Uint8Array_new (1 + length privKey + 4) in
  let data := Uint8Array_store data 0 0x00 in
  data <- lift (Uint8Array_set data privKey 1) ;;
  let data :=
    Uint8Array_store data (length data - 4) (bitand (ushr index 24) 0xff) in
  let data :=
    Uint8Array_store data (length data - 3) (bitand (ushr index 16) 0xff) in
  let data :=
    Uint8Array_store data (length data - 2) (bitand (ushr index 8) 0xff) in
  let data :=
    Uint8Array_store data (length data - 1) (bitand index 0xff) in
  I2 <- hmacSha512 (chainCode s) data ;;
  ret (mkExtendedKey (slice I2 0 (Some 32)) (slice I2 32 (Some 64))).

Definition derivePath (seed : bytes) (path : jsstring) : M ExtendedKey :=
  I <- hmacSha512 ED25519_SEED seed ;;
  let s := mkExtendedKey (slice I 0 (Some 32)) (slice I 32 (Some 64)) in
  indices <- lift (parsePath path) ;;
  s <- for_range (length indices) 0 s (loop_body indices) ;;
  ret s.

End Derive.
End JS.

(** ** src/App.tsx: the call of derivePath

    [deriveAccount] (and [deriveAccountFromMnemonic] in the second half of
    the file) builds the path from the account index and calls
    [derivePath] on the seed of the mnemonic. *)

Module App.
Import ES Eff.

(** [`m/44'/501'/${acctIndex}'/0'`] *)
Definition accountPath (acctIndex : Number) : jsstring :=
  js "m/44'/501'/" ++ Number_toString acctIndex ++ js "'/0'".

End App.

(** ** The specification's words, for comparison with the code *)

Module Spec.
Import ES.

(** The Master Key Generator as specified: HMAC-SHA512 with the key
    ["ed25519 seed"] and the seed as message; the first 32 bytes of the
    digest are [key], the last 32 are [chainCode]. *)
Definition masterKey (hmac_sha512 : bytes -> bytes -> bytes) (seed : bytes)
  : ExtendedKey :=
  let digest := hmac_sha512 (TextEncoder_encode (js "ed25519 seed")) seed in
  mkExtendedKey (firstn 32 digest) (skipn 32 digest).

(** The Child Derivation Step as specified: HMAC-SHA512 with the parent
    chain code as key and, as message, one zero byte, the parent key and the
    index on four bytes, most significant first. *)
Definition deriveChild (hmac_sha512 : bytes -> bytes -> bytes)
    (parent : ExtendedKey) (index : Z) : ExtendedKey :=
  let message := [x00] ++ key parent ++ uint32_be index in
  let digest := hmac_sha512 (chainCode parent) message in
  mkExtendedKey (firstn 32 digest) (skipn 32 digest).

(** A segment without its optional hardening suffix, ['] or [h]. *)
Definition stripHardening (seg : jsstring) : jsstring :=
  match rev seg with
  | c :: r => if (c =? 0x27) || (c =? 0x68) then rev r else seg
  | [] => seg
  end.

Definition isDecimalDigit (c : Z) : bool := (0x30 <=? c) && (c <=? 0x39).

(** A non-negative base-10 integer: one decimal digit or more, and nothing
    else. *)
Definition nonNegativeDecimal (s : jsstring) : bool :=
  match s with
  | [] => false
  | _ => forallb isDecimalDigit s
  end.

(** What [parseInt] needs to find a number: after leading white space and
    one optional sign, a decimal digit. *)
Definition startsWithNumber (s : jsstring) : bool :=
  match trimStart s with
  | c :: rest =>
      if (c =? 0x2B) || (c =? 0x2D)
      then match rest with d :: _ => isDecimalDigit d | [] => false end
      else isDecimalDigit c
  | [] => false
  end.

(** The segments of a path: what follows its first ['/']-separated part. *)
Definition segments (path : jsstring) : list jsstring :=
  tl (split 0x2F path).

(** The path made of a first part and segments, joined by ['/']. *)
Definition joinPath (first : jsstring) (segs : list jsstring) : jsstring :=
  first ++ flat_map (fun seg => 0x2F :: seg) segs.

End Spec.

(** ** What the code computes, in closed form

    These are not part of the source; each is proved below to be what the
    corresponding piece of [derivePath] computes. *)

Module Code.
Import ES Eff.

(** The pair made of the two halves of a digest. *)
Definition halves (digest : bytes) : ExtendedKey :=
  mkExtendedKey (firstn 32 digest) (skipn 32 digest).

(** The first HMAC call of [derivePath]: the seed in the key position, the
    constant in the message position. *)
Definition masterCall (seed : bytes) : HmacCall :=
  mkCall seed (TextEncoder_encode (js "ed25519 seed")).

(** The values of [key] and [chainCode] when the loop starts. *)
Definition master (hmac_sha512 : bytes -> bytes -> bytes) (seed : bytes)
  : ExtendedKey :=
  halves (hmac_sha512 seed (TextEncoder_encode (js "ed25519 seed"))).

(** The 37-byte buffer of one iteration. *)
Definition buffer (s : ExtendedKey) (index : Z) : bytes :=
  [x00] ++ key s ++ uint32_be (ToUint32 index).

(** The HMAC call of one iteration: the buffer in the key position, the
    chain code in the message position. *)
Definition childCall (s : ExtendedKey) (index : Z) : HmacCall :=
  mkCall (buffer s index) (chainCode s).

(** The values of [key] and [chainCode] after one iteration. *)
Definition child (hmac_sha512 : bytes -> bytes -> bytes) (s : ExtendedKey)
    (index : Z) : ExtendedKey :=
  halves (hmac_sha512 (buffer s index) (chainCode s)).

(** The HMAC calls of the iterations over [indices], from the state [s]. *)
Fixpoint childCalls (hmac_sha512 : bytes -> bytes -> bytes)
    (s : ExtendedKey) (indices : list Z) : list HmacCall :=
  match indices with
  | [] => []
  | index :: rest =>
      childCall s index :: childCalls hmac_sha512 (child hmac_sha512 s index) rest
  end.

(** Both buffers of an extended key hold 32 bytes. *)
Definition wellSized (s : ExtendedKey) : Prop :=
  length (key s) = 32%nat /\ length (chainCode s) = 32%nat.

End Code.

(** The seed of the first SLIP-0010 test vector. *)
Definition seed1 : ES.bytes :=
  Noble.of_hex "000102030405060708090a0b0c0d0e0f".

(** * Properties *)

Import ES Eff.

(** ** The 32-bit operators *)

Lemma ToUint32_range (x : Number) : 0 <= ToUint32 x < 2 ^ 32.
Proof.
  destruct x as [| neg | z]; cbn [ToUint32]; try lia.
  apply Z.mod_pos_bound. lia.
Qed.

Lemma ToInt32_low_bits (x : Number) (n : Z) :
  0 <= n < 32 -> Z.testbit (ToInt32 x) n = Z.testbit (ToUint32 x) n.
Proof.
  intros Hn. unfold ToInt32.
  destruct (2 ^ 31 <=? ToUint32 x); [|reflexivity].
  rewrite <- (Z.mod_pow2_bits_low (ToUint32 x - 2 ^ 32) 32 n) by lia.
  rewrite <- (Z.mod_pow2_bits_low (ToUint32 x) 32 n) by lia.
  f_equal.
  replace (ToUint32 x - 2 ^ 32) with (ToUint32 x + (-1) * 2 ^ 32) by lia.
  apply Z.mod_add. lia.
Qed.

Lemma ToUint32_high_bits (x : Number) (n : Z) :
  32 <= n -> Z.testbit (ToUint32 x) n = false.
Proof.
  intros Hn. pose proof (ToUint32_range x) as Hr.
  rewrite <- (Z.mod_small (ToUint32 x) (2 ^ 32)) by lia.
  apply Z.mod_pow2_bits_high. lia.
Qed.

Lemma min_int32_bits (n : Z) :
  0 <= n < 32 -> Z.testbit (-2147483648) n = (n =? 31).
Proof.
  intros Hn.
  change (-2147483648) with (Z.lnot (Z.ones 31)).
  rewrite Z.lnot_spec by lia.
  destruct (Z.eqb_spec n 31) as [->|Hne]; [reflexivity|].
  rewrite Z.ones_spec_low by lia. reflexivity.
Qed.

(** [(idx | 0x80000000) >>> 0] is the unsigned 32-bit value of [idx] with
    its top bit set. *)
Lemma hardened_index (idx : Number) :
  ushr (bitor idx 0x80000000) 0 = Z.lor (ToUint32 idx) 0x80000000.
Proof.
  unfold ushr, bitor.
  change (Z.land (ToUint32 0) 31) with 0. rewrite Z.shiftr_0_r.
  change (ToInt32 0x80000000) with (-2147483648).
  cbn [ToUint32].
  apply Z.bits_inj'. intros n Hn.
  destruct (Z.ltb_spec n 32) as [Hlt|Hge].
  - rewrite Z.mod_pow2_bits_low by lia.
    rewrite !Z.lor_spec, ToInt32_low_bits, min_int32_bits by lia.
    f_equal. change 0x80000000 with (2 ^ 31).
    rewrite Z.pow2_bits_eqb by lia. apply Z.eqb_sym.
  - rewrite Z.mod_pow2_bits_high by lia.
    rewrite Z.lor_spec, ToUint32_high_bits by lia.
    change 0x80000000 with (2 ^ 31).
    rewrite Z.pow2_bits_eqb by lia.
    symmetry. apply Z.eqb_neq. lia.
Qed.

Lemma hardened_index_range (idx : Number) :
  0x80000000 <= Z.lor (ToUint32 idx) 0x80000000 < 2 ^ 32.
Proof.
  pose proof (ToUint32_range idx) as Hr.
  assert (Hlog : Z.log2 (Z.lor (ToUint32 idx) 0x80000000)
                 = Z.max (Z.log2 (ToUint32 idx)) 31).
  { rewrite Z.log2_lor by lia. reflexivity. }
  assert (Hnn : 0 <= Z.lor (ToUint32 idx) 0x80000000).
  { apply Z.lor_nonneg. lia. }
  assert (Hpos : 0 < Z.lor (ToUint32 idx) 0x80000000).
  { destruct (Z.eq_dec (Z.lor (ToUint32 idx) 0x80000000) 0) as [E|E];
      [|lia].
    rewrite E in Hlog. cbn in Hlog. lia. }
  split.
  - change 0x80000000 with (2 ^ 31) at 1.
    apply Z.log2_le_pow2; lia.
  - apply Z.log2_lt_pow2; [lia|].
    rewrite Hlog.
    destruct (Z.eq_dec (ToUint32 idx) 0) as [E|E].
    + rewrite E. cbn. lia.
    + assert (Z.log2 (ToUint32 idx) < 32) by (apply Z.log2_lt_pow2; lia).
      lia.
Qed.

Lemma hardened_index_top_bit (idx : Number) :
  Z.testbit (Z.lor (ToUint32 idx) 0x80000000) 31 = true.
Proof.
  rewrite Z.lor_spec. change 0x80000000 with (2 ^ 31).
  rewrite Z.pow2_bits_true by lia. apply orb_true_r.
Qed.

(** ** Strings *)

Lemma replace_class_snoc (class : Z -> bool) (l : jsstring) (c : Z) :
  replace_class_at_end class (l ++ [c]) = if class c then l else l ++ [c].
Proof.
  induction l as [|d l IH]; cbn [app replace_class_at_end].
  - destruct (class c); reflexivity.
  - destruct (l ++ [c]) as [|e r] eqn:E.
    + destruct l; discriminate E.
    + rewrite andb_false_r, IH. destruct (class c); reflexivity.
Qed.

Lemma endsWith_snoc (l : jsstring) (c x : Z) :
  endsWith (l ++ [c]) [x] = (c =? x).
Proof.
  unfold endsWith. rewrite length_app. cbn [length].
  replace (length l + 1 <? 1)%nat with false
    by (symmetry; apply Nat.ltb_ge; lia).
  replace (length l + 1 - 1)%nat with (length l + 0)%nat by lia.
  rewrite skipn_app, Nat.add_0_r, skipn_all.
  replace (length l - length l)%nat with 0%nat by lia.
  cbn. apply andb_true_r.
Qed.

Lemma slice_drop_last_snoc {A : Type} (l : list A) (c : A) :
  slice (l ++ [c]) 0 (Some (-1)) = l.
Proof.
  unfold slice. rewrite length_app. cbn [length].
  replace (0 <? 0) with false by reflexivity.
  replace (-1 <? 0) with true by reflexivity.
  rewrite Z.min_l by lia. cbn [Z.to_nat skipn].
  replace (Z.to_nat _) with (length l) by lia.
  rewrite firstn_app, firstn_all, Nat.sub_diag. cbn. apply app_nil_r.
Qed.

Lemma slice_rest {A : Type} (x : A) (l : list A) :
  slice (x :: l) 1 None = l.
Proof.
  unfold slice. cbn [length].
  replace (1 <? 0) with false by reflexivity.
  rewrite Z.min_l by lia. cbn [Z.to_nat Pos.to_nat Pos.iter_op skipn].
  replace (Z.to_nat _) with (length l) by lia.
  apply firstn_all.
Qed.

Lemma slice_first {A : Type} (l : list A) (n : nat) :
  slice l 0 (Some (Z.of_nat n)) = firstn n l.
Proof.
  unfold slice.
  replace (0 <? 0) with false by reflexivity.
  replace (Z.of_nat n <? 0) with false by (symmetry; apply Z.ltb_ge; lia).
  rewrite (Z.min_l 0) by lia. cbn [Z.to_nat skipn].
  destruct (Nat.le_gt_cases n (length l)) as [Hle|Hgt].
  - rewrite Z.min_l by lia. f_equal. lia.
  - rewrite Z.min_r by lia.
    replace (Z.to_nat _) with (length l) by lia.
    rewrite firstn_all, firstn_all2 by lia. reflexivity.
Qed.

Lemma split_nonempty (sep : Z) (s : jsstring) : split sep s <> [].
Proof.
  destruct s as [|c s]; cbn [split]; [discriminate|].
  destruct (c =? sep); [discriminate|].
  destruct (split sep s); discriminate.
Qed.

(** The two ways of removing the hardening suffix agree, and are the
    specification's. *)
Lemma strip_ts_spec (seg : jsstring) :
  replace_class_at_end (fun c => (c =? 0x27) || (c =? 0x68)) seg
  = Spec.stripHardening seg.
Proof.
  unfold Spec.stripHardening.
  destruct (rev seg) as [|c r] eqn:E.
  - apply (f_equal (@rev Z)) in E. rewrite rev_involutive in E.
    subst seg. reflexivity.
  - apply (f_equal (@rev Z)) in E. rewrite rev_involutive in E.
    subst seg. cbn [rev]. rewrite replace_class_snoc. reflexivity.
Qed.

Lemma strip_js_spec (p : jsstring) :
  (if endsWith p (js "'") || endsWith p (js "h")
   then slice p 0 (Some (-1)) else p)
  = Spec.stripHardening p.
Proof.
  unfold Spec.stripHardening.
  destruct (rev p) as [|c r] eqn:E.
  - apply (f_equal (@rev Z)) in E. rewrite rev_involutive in E.
    subst p. reflexivity.
  - apply (f_equal (@rev Z)) in E. rewrite rev_involutive in E.
    subst p. cbn [rev].
    change (js "'") with [0x27]. change (js "h") with [0x68].
    rewrite !endsWith_snoc, slice_drop_last_snoc. reflexivity.
Qed.

(** ** parsePath *)

Lemma TS_parseSegment_spec (seg : jsstring) :
  TS.parseSegment seg
  = match parseInt (Spec.stripHardening seg) 10 with
    | NaN => inl (InvalidPathSegment seg)
    | idx => inr (Z.lor (ToUint32 idx) 0x80000000)
    end.
Proof.
  unfold TS.parseSegment. rewrite strip_ts_spec, hardened_index.
  destruct (parseInt _ _); reflexivity.
Qed.

Lemma JS_parseSegment_spec (p : jsstring) :
  JS.parseSegment p
  = match parseInt (Spec.stripHardening p) 10 with
    | NaN => inl (InvalidPathSegment p)
    | idx => inr (Z.lor (ToUint32 idx) 0x80000000)
    end.
Proof.
  unfold JS.parseSegment. rewrite strip_js_spec, hardened_index.
  destruct (parseInt _ _); reflexivity.
Qed.

Lemma parseSegment_ts_js (seg : jsstring) :
  TS.parseSegment seg = JS.parseSegment seg.
Proof. rewrite TS_parseSegment_spec, JS_parseSegment_spec. reflexivity. Qed.

Lemma Array_map_ext {A B : Type} (f g : A -> Exn B) (l : list A) :
  (forall x, f x = g x) -> Array_map f l = Array_map g l.
Proof.
  intros Hfg. induction l as [|x l IH]; cbn [Array_map]; [reflexivity|].
  rewrite Hfg, IH. reflexivity.
Qed.

Lemma parsePath_ts_js (path : jsstring) :
  TS.parsePath path = JS.parsePath path.
Proof.
  unfold TS.parsePath, JS.parsePath.
  destruct (negb (startsWith path (js "m"))); [reflexivity|].
  apply Array_map_ext, parseSegment_ts_js.
Qed.

(** [parsePath] in terms of the segments of the path. *)
Lemma TS_parsePath_segments (path : jsstring) :
  TS.parsePath path
  = if startsWith path (js "m")
    then Array_map TS.parseSegment (Spec.segments path)
    else inl InvalidPathFormat.
Proof.
  unfold TS.parsePath, Spec.segments.
  destruct (startsWith path (js "m")); cbn [negb]; [|reflexivity].
  destruct (split 0x2F path) as [|first segs] eqn:E.
  - exfalso. exact (split_nonempty _ _ E).
  - rewrite slice_rest. reflexivity.
Qed.

(** ** Typed arrays and slices *)

Lemma slice_from {A : Type} (l : list A) (n : nat) :
  slice l (Z.of_nat n) None = skipn n l.
Proof.
  unfold slice.
  replace (Z.of_nat n <? 0) with false by (symmetry; apply Z.ltb_ge; lia).
  destruct (Nat.le_gt_cases n (length l)) as [Hle|Hgt].
  - rewrite Z.min_l by lia. rewrite Nat2Z.id.
    apply firstn_all2. rewrite length_skipn. lia.
  - rewrite Z.min_r by lia. rewrite Nat2Z.id.
    rewrite skipn_all, (skipn_all2 l) by lia. apply firstn_nil.
Qed.

Lemma slice_range {A : Type} (l : list A) (a b : nat) :
  slice l (Z.of_nat a) (Some (Z.of_nat b)) = firstn (b - a) (skipn a l).
Proof.
  unfold slice.
  replace (Z.of_nat a <? 0) with false by (symmetry; apply Z.ltb_ge; lia).
  replace (Z.of_nat b <? 0) with false by (symmetry; apply Z.ltb_ge; lia).
  destruct (Nat.le_gt_cases a (length l)) as [Hle|Hgt].
  - rewrite (Z.min_l (Z.of_nat a)) by lia. rewrite Nat2Z.id.
    destruct (Nat.le_gt_cases b (length l)) as [Hb|Hb].
    + rewrite Z.min_l by lia. f_equal. lia.
    + rewrite Z.min_r by lia.
      rewrite !firstn_all2; [reflexivity| |]; rewrite length_skipn; lia.
  - rewrite (Z.min_r (Z.of_nat a)) by lia. rewrite Nat2Z.id.
    rewrite skipn_all, (skipn_all2 l) by lia. rewrite !firstn_nil.
    reflexivity.
Qed.

Lemma halves_ts (digest : bytes) :
  mkExtendedKey (slice digest 0 (Some 32)) (slice digest 32 None)
  = Code.halves digest.
Proof.
  unfold Code.halves.
  change (slice digest 0 (Some 32))
    with (slice digest 0 (Some (Z.of_nat 32))).
  change (slice digest 32 None) with (slice digest (Z.of_nat 32) None).
  rewrite slice_first, slice_from. reflexivity.
Qed.

Lemma halves_js (digest : bytes) :
  length digest = 64%nat ->
  mkExtendedKey (slice digest 0 (Some 32)) (slice digest 32 (Some 64))
  = Code.halves digest.
Proof.
  intros Hlen. unfold Code.halves.
  change (slice digest 0 (Some 32))
    with (slice digest 0 (Some (Z.of_nat 32))).
  change (slice digest 32 (Some 64))
    with (slice digest (Z.of_nat 32) (Some (Z.of_nat 64))).
  rewrite slice_first, slice_range.
  f_equal. apply firstn_all2. rewrite length_skipn. lia.
Qed.

Lemma halves_wellSized (digest : bytes) :
  length digest = 64%nat -> Code.wellSized (Code.halves digest).
Proof.
  intros Hlen. unfold Code.wellSized, Code.halves. cbn [key chainCode].
  rewrite length_firstn, length_skipn. lia.
Qed.

Lemma ToUint8_mod (a b : Z) : a mod 256 = b mod 256 -> ToUint8 a = ToUint8 b.
Proof. unfold ToUint8. intros ->. reflexivity. Qed.

(** [x & 0xff] stores the same byte as [x]. *)
Lemma ToUint8_bitand_ff (x : Number) :
  ToUint8 (bitand x 0xff) = ToUint8 (ToUint32 x).
Proof.
  apply ToUint8_mod. unfold bitand.
  change (ToInt32 0xff) with (Z.ones 8).
  rewrite Z.land_ones by lia. change (2 ^ 8) with 256.
  rewrite Z.mod_mod by lia.
  unfold ToInt32. destruct (2 ^ 31 <=? ToUint32 x); [|reflexivity].
  replace (ToUint32 x - 2 ^ 32) with (ToUint32 x + (-16777216) * 256) by lia.
  apply Z.mod_add. lia.
Qed.

Lemma ushr_const (index : Z) (k : Z) :
  0 <= k < 32 -> ushr index k = Z.shiftr (ToUint32 index) k.
Proof.
  intros Hk. unfold ushr. f_equal.
  cbn [ToUint32]. rewrite Z.mod_small by lia.
  change 31 with (Z.ones 5). rewrite Z.land_ones by lia.
  apply Z.mod_small. lia.
Qed.

Lemma ToUint32_shiftr (index : Z) (k : Z) :
  0 <= k -> ToUint32 (Z.shiftr (ToUint32 index) k)
            = Z.shiftr (ToUint32 index) k.
Proof.
  intros Hk. pose proof (ToUint32_range index) as Hr.
  cbn [ToUint32] in *. apply Z.mod_small.
  rewrite Z.shiftr_div_pow2 by lia. split.
  - apply Z.div_pos; lia.
  - apply Z.div_lt_upper_bound; [lia|].
    assert (1 <= 2 ^ k) by (apply (Z.pow_le_mono_r 2 0 k); lia). nia.
Qed.

Lemma Uint8Array_store_app (a b : bytes) (i : nat) (v : Z) :
  Uint8Array_store (a ++ b) (length a + i) v = a ++ Uint8Array_store b i v.
Proof.
  induction a as [|x a IH]; cbn [app length Nat.add Uint8Array_store].
  - reflexivity.
  - rewrite IH. reflexivity.
Qed.

Lemma Uint8Array_store_tail (d z : bytes) (i : nat) (v : Z) :
  length z = 4%nat -> (i <= 4)%nat ->
  Uint8Array_store (d ++ z) (length (d ++ z) - i) v
  = d ++ Uint8Array_store z (4 - i) v.
Proof.
  intros Hz Hi. rewrite length_app, Hz.
  replace (length d + 4 - i)%nat with (length d + (4 - i))%nat by lia.
  apply Uint8Array_store_app.
Qed.

(** The buffer of the TypeScript loop body. *)
Lemma Uint8Array_set_key (k : bytes) :
  length k = 32%nat ->
  Uint8Array_set (Uint8Array_new 37) k 1 = inr (([x00] ++ k) ++ repeat x00 4).
Proof.
  intros Hk. unfold Uint8Array_set, Uint8Array_new. rewrite Hk.
  cbn [length repeat Nat.add Nat.ltb Nat.leb firstn skipn app].
  reflexivity.
Qed.

Lemma DataView_setUint32_tail (d : bytes) (index : Z) :
  length d = 33%nat ->
  DataView_setUint32 (d ++ repeat x00 4) 33 index false
  = inr (d ++ uint32_be (ToUint32 index)).
Proof.
  intros Hd. unfold DataView_setUint32.
  rewrite length_app, Hd. cbn [repeat length Nat.add Nat.ltb Nat.leb].
  rewrite firstn_app, Hd, firstn_all2 by lia.
  rewrite skipn_app, Hd, skipn_all2 by lia.
  cbn [Nat.sub firstn skipn app]. rewrite app_nil_r. reflexivity.
Qed.

(** ** The effect monad *)

Lemma bind_lift_inr {A B : Type} (a : A) (f : A -> M B) :
  Eff.bind (lift (inr a)) f = f a.
Proof. unfold Eff.bind, lift. destruct (f a). reflexivity. Qed.

Lemma bind_lift_inl {A B : Type} (e : Error) (f : A -> M B) :
  Eff.bind (lift (inl e)) f = (inl e, []).
Proof. reflexivity. Qed.

Lemma bind_ret_r {A : Type} (m : M A) : Eff.bind m ret = m.
Proof.
  destruct m as [[e|a] calls]; cbn; [reflexivity|].
  rewrite app_nil_r. reflexivity.
Qed.

(** ** The loop of derivePath *)

Section Derivation.

Variable hmac_sha512 : bytes -> bytes -> bytes.

Lemma TS_bind_hmac {B : Type} (k message : bytes) (f : bytes -> M B) :
  Eff.bind (TS.hmac hmac_sha512 k message) f
  = (fst (f (hmac_sha512 k message)),
     mkCall k message :: snd (f (hmac_sha512 k message))).
Proof. unfold Eff.bind, TS.hmac. destruct (f _). reflexivity. Qed.

Lemma JS_bind_hmacSha512 {B : Type} (k data : bytes) (f : bytes -> M B) :
  Eff.bind (JS.hmacSha512 hmac_sha512 k data) f
  = (fst (f (hmac_sha512 data k)),
     mkCall data k :: snd (f (hmac_sha512 data k))).
Proof.
  unfold Eff.bind, JS.hmacSha512, JS.hmac. destruct (f _). reflexivity.
Qed.

(** One iteration of the TypeScript loop. *)
Lemma TS_loop_body_closed (index : Z) (s : ExtendedKey) :
  length (key s) = 32%nat ->
  TS.loop_body hmac_sha512 index s
  = (inr (Code.child hmac_sha512 s index), [Code.childCall s index]).
Proof.
  intros Hk. unfold TS.loop_body.
  rewrite Uint8Array_set_key, bind_lift_inr by exact Hk.
  rewrite DataView_setUint32_tail, bind_lift_inr
    by (rewrite length_app, Hk; reflexivity).
  rewrite TS_bind_hmac. cbn [fst snd ret]. rewrite halves_ts.
  reflexivity.
Qed.

(** One iteration of the JavaScript loop; the halves are taken with
    [slice(0, 32)] and [slice(32, 64)]. *)
Lemma JS_loop_body_closed (indices : list Z) (i : nat) (s : ExtendedKey) :
  length (key s) = 32%nat ->
  let index := nth i indices 0 in
  let digest := hmac_sha512 (Code.buffer s index) (chainCode s) in
  JS.loop_body hmac_sha512 indices i s
  = (inr (mkExtendedKey (slice digest 0 (Some 32))
                        (slice digest 32 (Some 64))),
     [Code.childCall s index]).
Proof.
  intros Hk index digest. unfold JS.loop_body. rewrite Hk.
  change (Uint8Array_store (Uint8Array_new (1 + 32 + 4)) 0 0)
    with (Uint8Array_new 37).
  rewrite Uint8Array_set_key, bind_lift_inr by exact Hk.
  fold index.
  rewrite Uint8Array_store_tail by (cbn; lia).
  cbn [repeat Nat.sub Uint8Array_store].
  rewrite (Uint8Array_store_tail _ _ 3) by (cbn; lia).
  cbn [Nat.sub Uint8Array_store].
  rewrite (Uint8Array_store_tail _ _ 2) by (cbn; lia).
  cbn [Nat.sub Uint8Array_store].
  rewrite (Uint8Array_store_tail _ _ 1) by (cbn; lia).
  cbn [Nat.sub Uint8Array_store].
  rewrite !ToUint8_bitand_ff, !ushr_const, !ToUint32_shiftr by lia.
  rewrite JS_bind_hmacSha512. cbn [fst snd ret].
  rewrite <- app_assoc. reflexivity.
Qed.

End Derivation.

(** ** derivePath *)

Section DerivePath.

Variable hmac_sha512 : bytes -> bytes -> bytes.

(** The TypeScript [derivePath]: the master HMAC, then the parser, then the
    loop. *)
Lemma TS_derivePath_unfold (seed : bytes) (path : jsstring) :
  TS.derivePath hmac_sha512 seed path
  = match TS.parsePath path with
    | inl e => (inl e, [Code.masterCall seed])
    | inr indices =>
        let r := TS.for_of indices (Code.master hmac_sha512 seed)
                   (TS.loop_body hmac_sha512) in
        (fst r, Code.masterCall seed :: snd r)
    end.
Proof.
  unfold TS.derivePath. rewrite TS_bind_hmac, halves_ts.
  destruct (TS.parsePath path) as [e|indices].
  - rewrite bind_lift_inl. reflexivity.
  - rewrite bind_lift_inr, bind_ret_r. reflexivity.
Qed.

Lemma JS_derivePath_unfold (seed : bytes) (path : jsstring) :
  JS.derivePath hmac_sha512 seed path
  = match JS.parsePath path with
    | inl e => (inl e, [Code.masterCall seed])
    | inr indices =>
        let I := hmac_sha512 seed JS.ED25519_SEED in
        let r := JS.for_range (length indices) 0
                   (mkExtendedKey (slice I 0 (Some 32))
                                  (slice I 32 (Some 64)))
                   (JS.loop_body hmac_sha512 indices) in
        (fst r, Code.masterCall seed :: snd r)
    end.
Proof.
  unfold JS.derivePath. rewrite JS_bind_hmacSha512.
  destruct (JS.parsePath path) as [e|indices].
  - rewrite bind_lift_inl. reflexivity.
  - rewrite bind_lift_inr, bind_ret_r. reflexivity.
Qed.

(** [derivePath] depends on the path through [parsePath] only. *)
Lemma TS_derivePath_parse_ext (seed : bytes) (p q : jsstring) :
  TS.parsePath p = TS.parsePath q ->
  TS.derivePath hmac_sha512 seed p = TS.derivePath hmac_sha512 seed q.
Proof. intros E. rewrite !TS_derivePath_unfold, E. reflexivity. Qed.

Lemma JS_derivePath_parse_ext (seed : bytes) (p q : jsstring) :
  JS.parsePath p = JS.parsePath q ->
  JS.derivePath hmac_sha512 seed p = JS.derivePath hmac_sha512 seed q.
Proof. intros E. rewrite !JS_derivePath_unfold, E. reflexivity. Qed.

Section Digest64.

(** HMAC-SHA512 returns 64 bytes. *)
Hypothesis hmac_sha512_length :
  forall k message, length (hmac_sha512 k message) = 64%nat.

Lemma master_wellSized (seed : bytes) :
  Code.wellSized (Code.master hmac_sha512 seed).
Proof. apply halves_wellSized, hmac_sha512_length. Qed.

Lemma child_wellSized (s : ExtendedKey) (index : Z) :
  Code.wellSized (Code.child hmac_sha512 s index).
Proof. apply halves_wellSized, hmac_sha512_length. Qed.

Lemma fold_child_wellSized (indices : list Z) (s : ExtendedKey) :
  Code.wellSized s ->
  Code.wellSized (fold_left (Code.child hmac_sha512) indices s).
Proof.
  revert s. induction indices as [|index rest IH]; intros s Hs;
    cbn [fold_left]; [exact Hs|].
  apply IH, child_wellSized.
Qed.

Lemma TS_for_of_closed (indices : list Z) (s : ExtendedKey) :
  Code.wellSized s ->
  TS.for_of indices s (TS.loop_body hmac_sha512)
  = (inr (fold_left (Code.child hmac_sha512) indices s),
     Code.childCalls hmac_sha512 s indices).
Proof.
  revert s. induction indices as [|index rest IH]; intros s Hs;
    cbn [TS.for_of fold_left Code.childCalls]; [reflexivity|].
  rewrite TS_loop_body_closed by apply Hs.
  cbn [Eff.bind]. rewrite IH by apply child_wellSized. reflexivity.
Qed.

(** The JavaScript loop after [n] of its iterations. *)
Lemma JS_for_range_prefix (n : nat) (pre rest : list Z) (s : ExtendedKey) :
  (n <= length rest)%nat ->
  Code.wellSized s ->
  JS.for_range n (length pre) s (JS.loop_body hmac_sha512 (pre ++ rest))
  = (inr (fold_left (Code.child hmac_sha512) (firstn n rest) s),
     Code.childCalls hmac_sha512 s (firstn n rest)).
Proof.
  revert pre rest s. induction n as [|n IH]; intros pre rest s Hn Hs;
    cbn [JS.for_range]; [reflexivity|].
  destruct rest as [|index rest]; [cbn in Hn; lia|].
  cbn [firstn fold_left Code.childCalls].
  rewrite JS_loop_body_closed by apply Hs.
  rewrite nth_middle, halves_js by apply hmac_sha512_length.
  cbn [Eff.bind]. fold (Code.child hmac_sha512 s index).
  replace (pre ++ index :: rest) with ((pre ++ [index]) ++ rest)
    by (rewrite <- app_assoc; reflexivity).
  replace (length pre + 1)%nat with (length (pre ++ [index]))
    by (rewrite length_app; reflexivity).
  rewrite IH; [reflexivity|cbn in Hn; lia|apply child_wellSized].
Qed.

Lemma JS_for_range_closed (indices : list Z) (s : ExtendedKey) :
  Code.wellSized s ->
  JS.for_range (length indices) 0 s (JS.loop_body hmac_sha512 indices)
  = (inr (fold_left (Code.child hmac_sha512) indices s),
     Code.childCalls hmac_sha512 s indices).
Proof.
  intros Hs.
  pose proof (JS_for_range_prefix (length indices) [] indices s (le_n _) Hs)
    as E.
  rewrite firstn_all in E. exact E.
Qed.

(** The whole of the TypeScript [derivePath]. *)
Lemma TS_derivePath_closed (seed : bytes) (path : jsstring) :
  TS.derivePath hmac_sha512 seed path
  = match TS.parsePath path with
    | inl e => (inl e, [Code.masterCall seed])
    | inr indices =>
        (inr (fold_left (Code.child hmac_sha512) indices
                (Code.master hmac_sha512 seed)),
         Code.masterCall seed
         :: Code.childCalls hmac_sha512 (Code.master hmac_sha512 seed)
              indices)
    end.
Proof.
  rewrite TS_derivePath_unfold.
  destruct (TS.parsePath path) as [e|indices]; [reflexivity|].
  rewrite TS_for_of_closed by apply master_wellSized. reflexivity.
Qed.

(** The whole of the JavaScript [derivePath]. *)
Lemma JS_derivePath_closed (seed : bytes) (path : jsstring) :
  JS.derivePath hmac_sha512 seed path
  = match JS.parsePath path with
    | inl e => (inl e, [Code.masterCall seed])
    | inr indices =>
        (inr (fold_left (Code.child hmac_sha512) indices
                (Code.master hmac_sha512 seed)),
         Code.masterCall seed
         :: Code.childCalls hmac_sha512 (Code.master hmac_sha512 seed)
              indices)
    end.
Proof.
  rewrite JS_derivePath_unfold.
  destruct (JS.parsePath path) as [e|indices]; [reflexivity|].
  cbv zeta. rewrite halves_js by apply hmac_sha512_length.
  fold (Code.master hmac_sha512 seed).
  rewrite JS_for_range_closed by apply master_wellSized.
  reflexivity.
Qed.

Lemma derivePath_ts_js (seed : bytes) (path : jsstring) :
  TS.derivePath hmac_sha512 seed path = JS.derivePath hmac_sha512 seed path.
Proof.
  rewrite TS_derivePath_closed, JS_derivePath_closed, parsePath_ts_js.
  reflexivity.
Qed.

End Digest64.
End DerivePath.

(** ** parseInt in base 10 *)

Lemma isRadixDigit_10 (c : Z) :
  isRadixDigit 10 c = Spec.isDecimalDigit c.
Proof.
  unfold isRadixDigit, digitValue, Spec.isDecimalDigit.
  destruct (Z.leb_spec 0x30 c), (Z.leb_spec c 0x39); cbn [andb].
  - apply Z.ltb_lt. lia.
  - destruct (Z.leb_spec 0x61 c), (Z.leb_spec c 0x7A); cbn [andb];
      try (apply Z.ltb_ge; lia);
      destruct (Z.leb_spec 0x41 c), (Z.leb_spec c 0x5A); cbn [andb];
      try reflexivity; apply Z.ltb_ge; lia.
  - destruct (Z.leb_spec 0x61 c), (Z.leb_spec c 0x7A); cbn [andb];
      try lia;
      destruct (Z.leb_spec 0x41 c), (Z.leb_spec c 0x5A); cbn [andb];
      try reflexivity; lia.
  - destruct (Z.leb_spec 0x61 c), (Z.leb_spec c 0x7A); cbn [andb];
      try lia;
      destruct (Z.leb_spec 0x41 c), (Z.leb_spec c 0x5A); cbn [andb];
      try reflexivity; lia.
Qed.

Lemma Number_of_Z_not_NaN (z : Z) : Number_of_Z z <> NaN.
Proof. unfold Number_of_Z. destruct (_ <=? _); discriminate. Qed.

(** [parseInt(s, 10)]: the radix checks are decided. *)
Lemma parseInt_10 (s : jsstring) :
  parseInt s 10
  = let str := trimStart s in
    let sign := match str with
                | c :: _ => if c =? 0x2D then -1 else 1
                | [] => 1
                end in
    let str := match str with
               | c :: str' => if (c =? 0x2B) || (c =? 0x2D) then str' else str
               | [] => str
               end in
    match takeDigits 10 str with
    | [] => NaN
    | _ => Number_of_Z (sign * digitsValue 10 (takeDigits 10 str))
    end.
Proof. reflexivity. Qed.

Lemma takeDigits_nil_iff (s : jsstring) :
  takeDigits 10 s = []
  <-> match s with d :: _ => Spec.isDecimalDigit d | [] => false end = false.
Proof.
  destruct s as [|d s]; cbn [takeDigits]; [tauto|].
  rewrite isRadixDigit_10. destruct (Spec.isDecimalDigit d); split;
    intros H; try reflexivity; discriminate H.
Qed.

(** [parseInt] returns NaN exactly when no number starts the string. *)
Lemma parseInt_NaN_iff (s : jsstring) :
  parseInt s 10 = NaN <-> Spec.startsWithNumber s = false.
Proof.
  rewrite parseInt_10. unfold Spec.startsWithNumber. cbv zeta.
  destruct (trimStart s) as [|c rest].
  - cbn. tauto.
  - destruct ((c =? 0x2B) || (c =? 0x2D)) eqn:Esign.
    + rewrite <- takeDigits_nil_iff.
      destruct (takeDigits 10 rest); [tauto|].
      split; [intros H; exfalso; exact (Number_of_Z_not_NaN _ H)
             |discriminate].
    + rewrite <- (takeDigits_nil_iff (c :: rest)).
      destruct (takeDigits 10 (c :: rest)); [tauto|].
      split; [intros H; exfalso; exact (Number_of_Z_not_NaN _ H)
             |discriminate].
Qed.

Lemma digitsValue_nonneg_from (digits : jsstring) (acc : Z) :
  0 <= acc ->
  Forall (fun c => Spec.isDecimalDigit c = true) digits ->
  0 <= fold_left
         (fun acc c =>
            acc * 10 + match digitValue c with Some d => d | None => 0 end)
         digits acc.
Proof.
  intros Hacc Hall. revert acc Hacc.
  induction Hall as [|c digits Hc _ IH]; intros acc Hacc; cbn [fold_left];
    [exact Hacc|].
  apply IH. unfold Spec.isDecimalDigit in Hc. unfold digitValue.
  rewrite Hc. apply andb_prop in Hc. lia.
Qed.

Lemma takeDigits_all (digits : jsstring) :
  Forall (fun c => Spec.isDecimalDigit c = true) digits ->
  takeDigits 10 digits = digits.
Proof.
  induction 1 as [|c digits Hc _ IH]; cbn [takeDigits]; [reflexivity|].
  rewrite isRadixDigit_10, Hc, IH. reflexivity.
Qed.

Lemma decimal_digit_not_white (c : Z) :
  Spec.isDecimalDigit c = true -> isStrWhiteSpaceChar c = false.
Proof.
  unfold Spec.isDecimalDigit, isStrWhiteSpaceChar. intros Hc.
  apply andb_prop in Hc. cbn [existsb].
  repeat match goal with
         | |- context [?a =? ?b] =>
             replace (a =? b) with false by (symmetry; apply Z.eqb_neq; lia)
         end.
  cbn [orb]. replace (0x2000 <=? c) with false
    by (symmetry; apply Z.leb_gt; lia).
  reflexivity.
Qed.

(** A remainder made of decimal digits only, below 2^53, parses to the
    integer it denotes. *)
Lemma parseInt_decimal (s : jsstring) :
  Spec.nonNegativeDecimal s = true ->
  digitsValue 10 s < 2 ^ 53 ->
  parseInt s 10 = Finite (digitsValue 10 s).
Proof.
  intros Hdec Hsmall. rewrite parseInt_10. cbv zeta.
  destruct s as [|c s]; [discriminate Hdec|].
  unfold Spec.nonNegativeDecimal in Hdec.
  assert (Hall : Forall (fun c => Spec.isDecimalDigit c = true) (c :: s)).
  { apply Forall_forall. apply forallb_forall. exact Hdec. }
  assert (Hc : Spec.isDecimalDigit c = true) by (inversion Hall; assumption).
  cbn [trimStart]. rewrite (decimal_digit_not_white c Hc).
  assert (Hsign : (c =? 0x2B) || (c =? 0x2D) = false).
  { unfold Spec.isDecimalDigit in Hc. apply andb_prop in Hc.
    apply orb_false_intro; apply Z.eqb_neq; lia. }
  rewrite Hsign. apply orb_false_elim in Hsign. rewrite (proj2 Hsign).
  rewrite (takeDigits_all _ Hall).
  assert (Hnn : 0 <= digitsValue 10 (c :: s)).
  { apply digitsValue_nonneg_from; [lia|exact Hall]. }
  rewrite Z.mul_1_l. unfold Number_of_Z.
  rewrite Z.abs_eq by exact Hnn. unfold round53.
  replace (digitsValue 10 (c :: s) <? 2 ^ 53) with true
    by (symmetry; apply Z.ltb_lt; exact Hsmall).
  replace (2 ^ 1024 <=? digitsValue 10 (c :: s)) with false.
  - f_equal. destruct (Z.eq_dec (digitsValue 10 (c :: s)) 0) as [E|E].
    + rewrite E. reflexivity.
    + rewrite Z.sgn_pos by lia. lia.
  - symmetry. apply Z.leb_gt.
    apply Z.lt_trans with (2 ^ 53); [exact Hsmall|].
    apply Z.pow_lt_mono_r; lia.
Qed.

(** ** The segments of a path *)

Lemma Array_map_fails {A B : Type} (f : A -> Exn B) (l : list A) (x : A)
    (e : Error) :
  In x l -> f x = inl e ->
  exists y e', In y l /\ f y = inl e' /\ Array_map f l = inl e'.
Proof.
  induction l as [|a l IH]; intros Hin Hx; [destruct Hin|].
  cbn [Array_map]. destruct (f a) as [ea|b] eqn:Ea.
  - exists a, ea. cbn. auto.
  - destruct Hin as [->|Hin]; [congruence|].
    destruct (IH Hin Hx) as [y [e' [Hy [Hfy Hmap]]]].
    exists y, e'. rewrite Hmap. cbn. auto.
Qed.

Lemma Array_map_error {A B : Type} (f : A -> Exn B) (l : list A)
    (e : Error) :
  Array_map f l = inl e -> exists y, In y l /\ f y = inl e.
Proof.
  induction l as [|a l IH]; cbn [Array_map]; [discriminate|].
  destruct (f a) as [ea|b] eqn:Ea; cbn [Exn_bind].
  - intros [= <-]. exists a. cbn. auto.
  - destruct (Array_map f l) as [el|bs]; cbn [Exn_bind]; [|discriminate].
    intros [= <-]. destruct (IH eq_refl) as [y [Hy Hfy]].
    exists y. cbn. auto.
Qed.

Lemma Array_map_Forall {A B : Type} (f : A -> Exn B) (P : B -> Prop)
    (l : list A) (r : list B) :
  (forall x y, f x = inr y -> P y) ->
  Array_map f l = inr r -> Forall P r.
Proof.
  intros Hf. revert r. induction l as [|a l IH]; cbn [Array_map]; intros r.
  - intros [= <-]. constructor.
  - destruct (f a) as [ea|b] eqn:Ea; cbn [Exn_bind]; [discriminate|].
    destruct (Array_map f l) as [el|bs]; cbn [Exn_bind]; [discriminate|].
    intros [= <-]. constructor; [exact (Hf a b Ea)|exact (IH bs eq_refl)].
Qed.

Lemma TS_parseSegment_error (seg : jsstring) (e : Error) :
  TS.parseSegment seg = inl e ->
  e = InvalidPathSegment seg
  /\ Spec.startsWithNumber (Spec.stripHardening seg) = false.
Proof.
  rewrite TS_parseSegment_spec.
  destruct (parseInt (Spec.stripHardening seg) 10) as [| neg | z] eqn:E;
    [|discriminate|discriminate].
  intros [= <-]. split; [reflexivity|]. apply parseInt_NaN_iff, E.
Qed.

Lemma TS_parseSegment_fails (seg : jsstring) :
  Spec.startsWithNumber (Spec.stripHardening seg) = false ->
  TS.parseSegment seg = inl (InvalidPathSegment seg).
Proof.
  intros H. apply parseInt_NaN_iff in H.
  rewrite TS_parseSegment_spec, H. reflexivity.
Qed.

Lemma split_first (sep : Z) (first rest : jsstring) :
  ~ In sep first ->
  split sep (first ++ sep :: rest) = first :: split sep rest.
Proof.
  induction first as [|c first IH]; intros Hnot; cbn [app split].
  - rewrite Z.eqb_refl. reflexivity.
  - replace (c =? sep) with false
      by (symmetry; apply Z.eqb_neq; intros ->; apply Hnot; cbn; auto).
    rewrite IH by (intros Hin; apply Hnot; cbn; auto). reflexivity.
Qed.

Lemma split_no_separator (sep : Z) (first : jsstring) :
  ~ In sep first -> split sep first = [first].
Proof.
  induction first as [|c first IH]; intros Hnot; cbn [split]; [reflexivity|].
  replace (c =? sep) with false
    by (symmetry; apply Z.eqb_neq; intros ->; apply Hnot; cbn; auto).
  rewrite IH by (intros Hin; apply Hnot; cbn; auto). reflexivity.
Qed.

(** The segments of a joined path do not depend on its first part. *)
Lemma segments_joinPath (first : jsstring) (segs : list jsstring) :
  ~ In 0x2F first ->
  Spec.segments (Spec.joinPath first segs)
  = match segs with
    | [] => []
    | seg :: segs' => split 0x2F (seg ++ flat_map (fun s => 0x2F :: s) segs')
    end.
Proof.
  intros Hnot. unfold Spec.segments, Spec.joinPath.
  destruct segs as [|seg segs']; cbn [flat_map].
  - rewrite app_nil_r, split_no_separator by exact Hnot. reflexivity.
  - cbn [app]. rewrite split_first by exact Hnot. reflexivity.
Qed.

Lemma startsWith_m_app (first rest : jsstring) :
  startsWith first (js "m") = true ->
  startsWith (first ++ rest) (js "m") = true.
Proof.
  destruct first as [|c first]; [discriminate|].
  unfold startsWith. cbn. destruct first; cbn; auto.
Qed.

(** ** HMAC-SHA512 returns 64 bytes *)

Lemma Noble_state_bytes_length (s : Noble.State) :
  length (Noble.state_bytes s) = 64%nat.
Proof.
  unfold Noble.state_bytes, Noble.be_bytes.
  rewrite !length_app, !length_map. reflexivity.
Qed.

Lemma Noble_sha512_length (msg : bytes) :
  length (Noble.sha512 msg) = 64%nat.
Proof. apply Noble_state_bytes_length. Qed.

Lemma Noble_hmac_sha512_length (k message : bytes) :
  length (Noble.hmac_sha512 k message) = 64%nat.
Proof. apply Noble_sha512_length. Qed.

(** The model reproduces the first SLIP-0010 test vector for ed25519: with
    the key ["ed25519 seed"] and the seed as message, the chain [m]. *)
Lemma Noble_hmac_sha512_slip10_vector :
  Noble.hmac_sha512 (TextEncoder_encode (js "ed25519 seed")) seed1
  = Noble.of_hex
      "2b4be7f19ee27bbf30c667b642d5f4aa69fd169872f8fc3059c08ebae2eb19e7"
    ++ Noble.of_hex
      "90046a93de5380a72b5e45010748567d5ea02bbf6522f979e05c0d8d8ca9fffb".
Proof. vm_compute. reflexivity. Qed.

(** ** parseInt beyond the integers a double holds exactly *)

(** A decimal above 2^53 is rounded to the nearest double before the 32-bit
    conversion: 2^53 + 1 becomes 2^53, whose low 32 bits are zero. *)
Lemma parsePath_rounds_to_double :
  parseInt (js "9007199254740993") 10 = Finite 9007199254740992
  /\ TS.parsePath (js "m/9007199254740993") = inr [0x80000000]
  /\ JS.parsePath (js "m/9007199254740993") = inr [0x80000000].
Proof. split; [|split]; vm_compute; reflexivity. Qed.

(** A segment on which [parseInt] returns an infinity is not rejected, and
    gives the index 0x80000000. *)
Lemma parseSegment_infinity (seg : jsstring) (negative : bool) :
  parseInt (Spec.stripHardening seg) 10 = Infinity negative ->
  TS.parseSegment seg = inr 0x80000000
  /\ JS.parseSegment seg = inr 0x80000000.
Proof.
  intros H. rewrite TS_parseSegment_spec, JS_parseSegment_spec, H.
  split; reflexivity.
Qed.

(** The digit 1 followed by 309 zeros is such a segment. *)
Lemma parseInt_overflows :
  parseInt (0x31 :: repeat 0x30 309) 10 = Infinity false.
Proof. vm_compute. reflexivity. Qed.

(** * The claims *)

(** C1 (the code departs from the claim).  The claim: the master pair is
    HMAC-SHA512 with key ["ed25519 seed"] and message the seed.  The code
    passes the seed where [hmac] expects the key and ["ed25519 seed"] where
    it expects the message: for every seed, [derivePath(seed, "m")] makes
    the single call [hmac(sha512, seed, SEED_KEY)] and returns its halves.
    On the seed of the first SLIP-0010 test vector the result is not the
    master pair of the specification, which is the published one. *)
Theorem C1_master_hmac_roles :
  (forall (hmac_sha512 : bytes -> bytes -> bytes) (seed : bytes),
      TS.derivePath hmac_sha512 seed (js "m")
      = (inr (Code.halves (hmac_sha512 seed TS.SEED_KEY)),
         [{| call_key := seed; call_message := TS.SEED_KEY |}]))
  /\ (forall (hmac_sha512 : bytes -> bytes -> bytes) (seed : bytes),
         hmac_calls (JS.derivePath hmac_sha512 seed (js "m"))
         = [{| call_key := seed; call_message := JS.ED25519_SEED |}])
  /\ result (TS.derivePath Noble.hmac_sha512 seed1 (js "m"))
     = inr (mkExtendedKey
              (Noble.of_hex
                 "55f4bc2fb7bbf537212c7a8ec50960cde00b8aa6a5f1fd255f15b1f6976eaf6e")
              (Noble.of_hex
                 "072b14692c002a028bee5bd449476791686d4d609a7c1b043df1401b3fe47be0"))
  /\ result (JS.derivePath Noble.hmac_sha512 seed1 (js "m"))
     = result (TS.derivePath Noble.hmac_sha512 seed1 (js "m"))
  /\ Spec.masterKey Noble.hmac_sha512 seed1
     = mkExtendedKey
         (Noble.of_hex
            "2b4be7f19ee27bbf30c667b642d5f4aa69fd169872f8fc3059c08ebae2eb19e7")
         (Noble.of_hex
            "90046a93de5380a72b5e45010748567d5ea02bbf6522f979e05c0d8d8ca9fffb")
  /\ result (TS.derivePath Noble.hmac_sha512 seed1 (js "m"))
     <> inr (Spec.masterKey Noble.hmac_sha512 seed1).
Proof.
  split; [|split; [|split; [|split; [|split]]]].
  - intros hmac_sha512 seed. rewrite TS_derivePath_unfold. reflexivity.
  - intros hmac_sha512 seed. rewrite JS_derivePath_unfold. reflexivity.
  - vm_compute. reflexivity.
  - vm_compute. reflexivity.
  - vm_compute. reflexivity.
  - vm_compute. discriminate.
Qed.

(** C2 (the code departs from the claim).  The claim: the child step is
    HMAC-SHA512 with key the parent chain code and message the 37-byte
    buffer.  The code builds the buffer as claimed but passes it where
    [hmac] expects the key, and the chain code where it expects the
    message.  From the master pair of the first SLIP-0010 test vector and
    the index 0x80000000, the loop body does not return the child of the
    specification, which is the published one for the chain [m/0H]. *)
Theorem C2_child_hmac_roles :
  let parent := Spec.masterKey Noble.hmac_sha512 seed1 in
  let buffer :=
    Noble.of_hex
      "002b4be7f19ee27bbf30c667b642d5f4aa69fd169872f8fc3059c08ebae2eb19e780000000" in
  TS.loop_body Noble.hmac_sha512 0x80000000 parent
  = (inr (mkExtendedKey
            (Noble.of_hex
               "eb8d1e17df96f13d3551f2224b74d4d368ea1f7437946902fb16d57ab89f9e37")
            (Noble.of_hex
               "b4eb46a7ef8f85dc310b961a0cd646604d9c748601a476d1f9281c99cac58494")),
     [{| call_key := buffer; call_message := chainCode parent |}])
  /\ JS.loop_body Noble.hmac_sha512 [0x80000000] 0 parent
     = TS.loop_body Noble.hmac_sha512 0x80000000 parent
  /\ length buffer = 37%nat
  /\ Spec.deriveChild Noble.hmac_sha512 parent 0x80000000
     = mkExtendedKey
         (Noble.of_hex
            "68e0fe46dfb67e368c75379acec591dad19df3cde26e63b93a8e704f1dade7a3")
         (Noble.of_hex
            "8b59aa11380b624e81507a27fedda59fea6d0b779a778918a2fd3590e16e9c69")
  /\ result (TS.loop_body Noble.hmac_sha512 0x80000000 parent)
     <> inr (Spec.deriveChild Noble.hmac_sha512 parent 0x80000000).
Proof.
  cbv zeta. split; [|split; [|split; [|split]]].
  - vm_compute. reflexivity.
  - vm_compute. reflexivity.
  - vm_compute. reflexivity.
  - vm_compute. reflexivity.
  - vm_compute. discriminate.
Qed.

(** C5.  Parsing ["m/44'/501'/0'/0'"] succeeds and yields the indices
    0x8000002C, 0x800001F5, 0x80000000, 0x80000000, in that order. *)
Theorem C5_parse_solana_path :
  TS.parsePath (js "m/44'/501'/0'/0'")
  = inr [0x8000002C; 0x800001F5; 0x80000000; 0x80000000]
  /\ JS.parsePath (js "m/44'/501'/0'/0'")
     = inr [0x8000002C; 0x800001F5; 0x80000000; 0x80000000].
Proof. split; vm_compute; reflexivity. Qed.

(** C6.  Whenever parsing succeeds, every index of the result has its most
    significant bit set: it lies between 0x80000000 and 2^32 - 1, whether
    or not the segment had a hardening suffix. *)
Theorem C6_indices_hardened (path : jsstring) (indices : list Z) :
  TS.parsePath path = inr indices \/ JS.parsePath path = inr indices ->
  Forall (fun index => 0x80000000 <= index < 2 ^ 32
                       /\ Z.testbit index 31 = true) indices.
Proof.
  intros H.
  assert (Hts : TS.parsePath path = inr indices).
  { destruct H as [H|H]; [exact H|]. rewrite parsePath_ts_js. exact H. }
  clear H. rewrite TS_parsePath_segments in Hts.
  destruct (startsWith path (js "m")); [|discriminate].
  revert Hts. apply Array_map_Forall.
  intros seg index. rewrite TS_parseSegment_spec.
  destruct (parseInt (Spec.stripHardening seg) 10) as [| neg | z];
    [discriminate| |]; intros [= <-].
  - exact (conj (hardened_index_range (Infinity neg))
                (hardened_index_top_bit (Infinity neg))).
  - exact (conj (hardened_index_range (Finite z))
                (hardened_index_top_bit (Finite z))).
Qed.

Lemma C6_indices_hardened_witness :
  Forall (fun index => 0x80000000 <= index < 2 ^ 32
                       /\ Z.testbit index 31 = true)
    [0x80000007; 0x80000009].
Proof.
  apply (C6_indices_hardened (js "m/7/9'") [0x80000007; 0x80000009]).
  left. vm_compute. reflexivity.
Defined.

(** C10.  A segment that parses to the number [n] gives the index
    [(n mod 2^32) | 0x80000000], an unsigned 32-bit value; so values outside
    [0, 2^31) wrap and collide: ["m/2147483648"] and ["m/0"] both parse to
    0x80000000 and give the same result for every seed. *)
Theorem C10_index_wraps :
  (forall (seg : jsstring) (n : Z),
      parseInt (Spec.stripHardening seg) 10 = Finite n ->
      TS.parseSegment seg = inr (Z.lor (n mod 2 ^ 32) 0x80000000)
      /\ JS.parseSegment seg = inr (Z.lor (n mod 2 ^ 32) 0x80000000)
      /\ 0 <= Z.lor (n mod 2 ^ 32) 0x80000000 < 2 ^ 32)
  /\ TS.parsePath (js "m/2147483648") = inr [0x80000000]
  /\ TS.parsePath (js "m/0") = inr [0x80000000]
  /\ JS.parsePath (js "m/2147483648") = inr [0x80000000]
  /\ JS.parsePath (js "m/0") = inr [0x80000000]
  /\ (forall (hmac_sha512 : bytes -> bytes -> bytes) (seed : bytes),
         TS.derivePath hmac_sha512 seed (js "m/2147483648")
         = TS.derivePath hmac_sha512 seed (js "m/0")
         /\ JS.derivePath hmac_sha512 seed (js "m/2147483648")
            = JS.derivePath hmac_sha512 seed (js "m/0")).
Proof.
  split; [|split; [|split; [|split; [|split]]]].
  - intros seg n Hn.
    rewrite TS_parseSegment_spec, JS_parseSegment_spec, Hn.
    cbn [ToUint32]. split; [reflexivity|split; [reflexivity|]].
    pose proof (hardened_index_range (Finite n)) as Hr.
    cbn [ToUint32] in Hr. lia.
  - vm_compute. reflexivity.
  - vm_compute. reflexivity.
  - vm_compute. reflexivity.
  - vm_compute. reflexivity.
  - intros hmac_sha512 seed. split.
    + apply TS_derivePath_parse_ext. vm_compute. reflexivity.
    + apply JS_derivePath_parse_ext. vm_compute. reflexivity.
Qed.

Lemma C10_index_wraps_witness :
  TS.parseSegment (js "4294967297'") = inr 0x80000001
  /\ JS.parseSegment (js "4294967297'") = inr 0x80000001
  /\ 0 <= 0x80000001 < 2 ^ 32.
Proof.
  apply (proj1 C10_index_wraps (js "4294967297'") 4294967297).
  vm_compute. reflexivity.
Defined.

(** C3, amended.  The specification's sentence is too strong: the code
    parses with [parseInt], which accepts a remainder that merely starts
    with a number.  What holds: when the path begins with ["m"] and one of its segments has
    a remainder that does not start with a number (after white space and
    one optional sign, no decimal digit: the empty and the non-numeric
    remainder), [derivePath] fails with InvalidPathSegment, reporting such
    a segment. *)
Theorem C3_segment_without_number_fails
    (hmac_sha512 : bytes -> bytes -> bytes) (seed : bytes)
    (path seg : jsstring) :
  startsWith path (js "m") = true ->
  In seg (Spec.segments path) ->
  Spec.startsWithNumber (Spec.stripHardening seg) = false ->
  exists bad,
    In bad (Spec.segments path)
    /\ Spec.startsWithNumber (Spec.stripHardening bad) = false
    /\ result (TS.derivePath hmac_sha512 seed path)
       = inl (InvalidPathSegment bad)
    /\ result (JS.derivePath hmac_sha512 seed path)
       = inl (InvalidPathSegment bad).
Proof.
  intros Hm Hin Hseg.
  destruct (Array_map_fails TS.parseSegment _ seg _ Hin
              (TS_parseSegment_fails seg Hseg)) as [bad [e [Hbad [He Hmap]]]].
  destruct (TS_parseSegment_error bad e He) as [-> Hnum].
  assert (Hparse : TS.parsePath path = inl (InvalidPathSegment bad)).
  { rewrite TS_parsePath_segments, Hm. exact Hmap. }
  exists bad. split; [exact Hbad|split; [exact Hnum|]].
  rewrite TS_derivePath_unfold, JS_derivePath_unfold.
  rewrite <- parsePath_ts_js, Hparse. split; reflexivity.
Qed.

(** The particular case of the claim: ["m/abc'"]. *)
Lemma C3_segment_without_number_fails_witness :
  exists bad,
    In bad (Spec.segments (js "m/abc'"))
    /\ Spec.startsWithNumber (Spec.stripHardening bad) = false
    /\ result (TS.derivePath Noble.hmac_sha512 seed1 (js "m/abc'"))
       = inl (InvalidPathSegment bad)
    /\ result (JS.derivePath Noble.hmac_sha512 seed1 (js "m/abc'"))
       = inl (InvalidPathSegment bad).
Proof.
  apply (C3_segment_without_number_fails Noble.hmac_sha512 seed1
           (js "m/abc'") (js "abc'")).
  - reflexivity.
  - left. reflexivity.
  - reflexivity.
Defined.

(** C3 as the specification states it fails on ["m/-5/12abc"]: neither ["-5"] nor ["12abc"] is
    a non-negative base-10 integer, and [derivePath] succeeds, with the
    indices 0xFFFFFFFB and 0x8000000C. *)
Lemma C3_counterexample :
  let path := js "m/-5/12abc" in
  startsWith path (js "m") = true
  /\ Spec.segments path = [js "-5"; js "12abc"]
  /\ Spec.nonNegativeDecimal (Spec.stripHardening (js "-5")) = false
  /\ Spec.nonNegativeDecimal (Spec.stripHardening (js "12abc")) = false
  /\ TS.parsePath path = inr [0xFFFFFFFB; 0x8000000C]
  /\ JS.parsePath path = inr [0xFFFFFFFB; 0x8000000C]
  /\ (exists r, result (TS.derivePath Noble.hmac_sha512 seed1 path) = inr r)
  /\ (exists r, result (JS.derivePath Noble.hmac_sha512 seed1 path) = inr r).
Proof.
  cbv zeta.
  split; [|split; [|split; [|split; [|split; [|split; [|split]]]]]];
    try (vm_compute; reflexivity).
  - eexists. vm_compute. reflexivity.
  - eexists. vm_compute. reflexivity.
Qed.

(** C4, amended.  The specification's sentence is too strong: the master
    HMAC is computed before the path is parsed.  What holds: when parsing fails, the failure
    is that of [derivePath], with no extended key returned; the only HMAC
    computation made is the master one, none for a child; and the error is
    InvalidPathFormat or InvalidPathSegment. *)
Theorem C4_parse_error_after_master_hmac
    (hmac_sha512 : bytes -> bytes -> bytes) (seed : bytes)
    (path : jsstring) (e : Error) :
  TS.parsePath path = inl e ->
  TS.derivePath hmac_sha512 seed path
  = (inl e, [{| call_key := seed; call_message := TS.SEED_KEY |}])
  /\ JS.derivePath hmac_sha512 seed path
     = (inl e, [{| call_key := seed; call_message := JS.ED25519_SEED |}])
  /\ ((e = InvalidPathFormat /\ startsWith path (js "m") = false)
      \/ exists seg, e = InvalidPathSegment seg
                     /\ In seg (Spec.segments path)).
Proof.
  intros Hparse.
  rewrite TS_derivePath_unfold, JS_derivePath_unfold.
  rewrite <- parsePath_ts_js, Hparse.
  split; [reflexivity|split; [reflexivity|]].
  rewrite TS_parsePath_segments in Hparse.
  destruct (startsWith path (js "m")).
  - right. destruct (Array_map_error _ _ _ Hparse) as [seg [Hin Hseg]].
    destruct (TS_parseSegment_error seg e Hseg) as [-> _].
    exists seg. auto.
  - left. injection Hparse as <-. auto.
Qed.

Lemma C4_parse_error_after_master_hmac_witness :
  TS.derivePath Noble.hmac_sha512 seed1 (js "44'/0'")
  = (inl InvalidPathFormat,
     [{| call_key := seed1; call_message := TS.SEED_KEY |}])
  /\ JS.derivePath Noble.hmac_sha512 seed1 (js "44'/0'")
     = (inl InvalidPathFormat,
        [{| call_key := seed1; call_message := JS.ED25519_SEED |}])
  /\ ((InvalidPathFormat = InvalidPathFormat
       /\ startsWith (js "44'/0'") (js "m") = false)
      \/ exists seg, InvalidPathFormat = InvalidPathSegment seg
                     /\ In seg (Spec.segments (js "44'/0'"))).
Proof.
  apply (C4_parse_error_after_master_hmac Noble.hmac_sha512 seed1
           (js "44'/0'") InvalidPathFormat).
  reflexivity.
Defined.

(** C4 as the specification states it fails on the path ["44'/0'"]: it is rejected with
    InvalidPathFormat, and by then one HMAC has been computed. *)
Lemma C4_counterexample :
  TS.parsePath (js "44'/0'") = inl InvalidPathFormat
  /\ result (TS.derivePath Noble.hmac_sha512 seed1 (js "44'/0'"))
     = inl InvalidPathFormat
  /\ hmac_calls (TS.derivePath Noble.hmac_sha512 seed1 (js "44'/0'"))
     = [{| call_key := seed1; call_message := TS.SEED_KEY |}]
  /\ hmac_calls (TS.derivePath Noble.hmac_sha512 seed1 (js "44'/0'")) <> []
  /\ hmac_calls (JS.derivePath Noble.hmac_sha512 seed1 (js "44'/0'")) <> [].
Proof.
  split; [|split; [|split; [|split]]]; try (vm_compute; reflexivity);
    vm_compute; discriminate.
Qed.

(** C7.  With HMAC-SHA512 returning 64 bytes: on every valid path, the
    empty one included, [derivePath] returns, and [key] and [chainCode]
    hold exactly 32 bytes, in the result and in the state of the loop after
    any number of its iterations. *)
Theorem C7_fixed_width
    (hmac_sha512 : bytes -> bytes -> bytes)
    (hmac_sha512_length :
       forall k message, length (hmac_sha512 k message) = 64%nat)
    (seed : bytes) (path : jsstring) (indices : list Z) :
  TS.parsePath path = inr indices ->
  (exists r, result (TS.derivePath hmac_sha512 seed path) = inr r
             /\ length (key r) = 32%nat /\ length (chainCode r) = 32%nat)
  /\ (exists r, result (JS.derivePath hmac_sha512 seed path) = inr r
                /\ length (key r) = 32%nat /\ length (chainCode r) = 32%nat)
  /\ (forall n, (n <= length indices)%nat ->
        exists s,
          result (TS.for_of (firstn n indices)
                    (Code.master hmac_sha512 seed)
                    (TS.loop_body hmac_sha512)) = inr s
          /\ length (key s) = 32%nat /\ length (chainCode s) = 32%nat)
  /\ (forall n, (n <= length indices)%nat ->
        exists s,
          result (JS.for_range n 0 (Code.master hmac_sha512 seed)
                    (JS.loop_body hmac_sha512 indices)) = inr s
          /\ length (key s) = 32%nat /\ length (chainCode s) = 32%nat).
Proof.
  intros Hparse.
  pose proof (master_wellSized hmac_sha512 hmac_sha512_length seed) as Hm.
  split; [|split; [|split]].
  - rewrite TS_derivePath_closed, Hparse by exact hmac_sha512_length.
    eexists. split; [reflexivity|].
    apply fold_child_wellSized; assumption.
  - rewrite JS_derivePath_closed, <- parsePath_ts_js, Hparse
      by exact hmac_sha512_length.
    eexists. split; [reflexivity|].
    apply fold_child_wellSized; assumption.
  - intros n _.
    rewrite TS_for_of_closed by assumption.
    eexists. split; [reflexivity|].
    apply fold_child_wellSized; assumption.
  - intros n Hn.
    pose proof (JS_for_range_prefix hmac_sha512 hmac_sha512_length n []
                  indices _ Hn Hm) as E.
    cbn [length app] in E. rewrite E.
    eexists. split; [reflexivity|].
    apply fold_child_wellSized; assumption.
Qed.

Lemma C7_fixed_width_witness :
  (exists r,
      result (TS.derivePath Noble.hmac_sha512 seed1 (js "m/44'/501'/0'/0'"))
      = inr r
      /\ length (key r) = 32%nat /\ length (chainCode r) = 32%nat)
  /\ (exists r, result (TS.derivePath Noble.hmac_sha512 seed1 (js "m"))
                = inr r
                /\ length (key r) = 32%nat /\ length (chainCode r) = 32%nat).
Proof.
  assert (H1 : TS.parsePath (js "m/44'/501'/0'/0'")
               = inr [0x8000002C; 0x800001F5; 0x80000000; 0x80000000])
    by (vm_compute; reflexivity).
  assert (H2 : TS.parsePath (js "m") = inr []) by (vm_compute; reflexivity).
  split.
  - exact (proj1 (C7_fixed_width Noble.hmac_sha512 Noble_hmac_sha512_length
                    seed1 _ _ H1)).
  - exact (proj1 (C7_fixed_width Noble.hmac_sha512 Noble_hmac_sha512_length
                    seed1 _ _ H2)).
Defined.

(** C8.  With HMAC-SHA512 returning 64 bytes, the two implementations
    agree on every seed and path: both fail because the path does not start
    with ["m"], or both fail on the same unparseable segment, or both
    return the same [key] and [chainCode]. *)
Theorem C8_ts_js_agree
    (hmac_sha512 : bytes -> bytes -> bytes)
    (hmac_sha512_length :
       forall k message, length (hmac_sha512 k message) = 64%nat)
    (seed : bytes) (path : jsstring) :
  TS.derivePath hmac_sha512 seed path = JS.derivePath hmac_sha512 seed path
  /\ ((startsWith path (js "m") = false
       /\ result (TS.derivePath hmac_sha512 seed path)
          = inl InvalidPathFormat
       /\ result (JS.derivePath hmac_sha512 seed path)
          = inl InvalidPathFormat)
      \/ (exists seg,
             In seg (Spec.segments path)
             /\ parseInt (Spec.stripHardening seg) 10 = NaN
             /\ result (TS.derivePath hmac_sha512 seed path)
                = inl (InvalidPathSegment seg)
             /\ result (JS.derivePath hmac_sha512 seed path)
                = inl (InvalidPathSegment seg))
      \/ (exists r,
             result (TS.derivePath hmac_sha512 seed path) = inr r
             /\ result (JS.derivePath hmac_sha512 seed path) = inr r)).
Proof.
  pose proof (derivePath_ts_js hmac_sha512 hmac_sha512_length seed path)
    as Heq.
  split; [exact Heq|]. rewrite <- Heq.
  rewrite TS_derivePath_closed by exact hmac_sha512_length.
  destruct (TS.parsePath path) as [e|indices] eqn:Hparse.
  - rewrite TS_parsePath_segments in Hparse.
    destruct (startsWith path (js "m")).
    + right. left.
      destruct (Array_map_error _ _ _ Hparse) as [seg [Hin Hseg]].
      destruct (TS_parseSegment_error seg e Hseg) as [-> Hnum].
      exists seg. split; [exact Hin|].
      split; [apply parseInt_NaN_iff, Hnum|]. split; reflexivity.
    + left. injection Hparse as <-. auto.
  - right. right. eexists. split; reflexivity.
Qed.

Lemma C8_ts_js_agree_witness :
  TS.derivePath Noble.hmac_sha512 seed1 (js "m/44'/501'/0'/0'")
  = JS.derivePath Noble.hmac_sha512 seed1 (js "m/44'/501'/0'/0'").
Proof.
  exact (proj1 (C8_ts_js_agree Noble.hmac_sha512 Noble_hmac_sha512_length
                  seed1 (js "m/44'/501'/0'/0'"))).
Defined.

(** C9.  The root check looks at the first character only, and the first
    ['/']-separated part of the path is dropped unread: a path whose first
    part starts with ["m"] passes the check and gives what the path with
    first part exactly ["m"] gives; so it succeeds whenever that one parses
    (HMAC-SHA512 returning 64 bytes), as ["mnemonic/0'"] does. *)
Theorem C9_root_marker
    (hmac_sha512 : bytes -> bytes -> bytes) (seed : bytes)
    (first : jsstring) (segs : list jsstring) :
  startsWith first (js "m") = true ->
  ~ In 0x2F first ->
  TS.derivePath hmac_sha512 seed (Spec.joinPath first segs)
  = TS.derivePath hmac_sha512 seed (Spec.joinPath (js "m") segs)
  /\ JS.derivePath hmac_sha512 seed (Spec.joinPath first segs)
     = JS.derivePath hmac_sha512 seed (Spec.joinPath (js "m") segs)
  /\ TS.parsePath (Spec.joinPath first segs) <> inl InvalidPathFormat
  /\ JS.parsePath (Spec.joinPath first segs) <> inl InvalidPathFormat
  /\ ((forall k message, length (hmac_sha512 k message) = 64%nat) ->
      forall indices,
        TS.parsePath (Spec.joinPath (js "m") segs) = inr indices ->
        exists r,
          result (TS.derivePath hmac_sha512 seed (Spec.joinPath first segs))
          = inr r
          /\ result (JS.derivePath hmac_sha512 seed
                       (Spec.joinPath first segs))
             = inr r).
Proof.
  intros Hm Hnot.
  assert (Hnot_m : ~ In 0x2F (js "m")).
  { cbn. intros [H|[]]. discriminate H. }
  assert (Hparse : TS.parsePath (Spec.joinPath first segs)
                   = TS.parsePath (Spec.joinPath (js "m") segs)).
  { rewrite !TS_parsePath_segments, !segments_joinPath by assumption.
    unfold Spec.joinPath.
    rewrite !startsWith_m_app by (exact Hm || reflexivity). reflexivity. }
  assert (Hfmt : TS.parsePath (Spec.joinPath first segs)
                 <> inl InvalidPathFormat).
  { rewrite TS_parsePath_segments. unfold Spec.joinPath at 1.
    rewrite startsWith_m_app by exact Hm.
    intros H. destruct (Array_map_error _ _ _ H) as [seg [_ Hseg]].
    destruct (TS_parseSegment_error seg _ Hseg) as [Habs _].
    discriminate Habs. }
  split; [apply TS_derivePath_parse_ext, Hparse|].
  split; [apply JS_derivePath_parse_ext; rewrite <- !parsePath_ts_js;
          exact Hparse|].
  split; [exact Hfmt|].
  split; [rewrite <- parsePath_ts_js; exact Hfmt|].
  intros Hlen indices Hidx.
  rewrite TS_derivePath_closed, JS_derivePath_closed by exact Hlen.
  rewrite <- parsePath_ts_js, Hparse, Hidx.
  eexists. split; reflexivity.
Qed.

Lemma C9_root_marker_witness :
  TS.derivePath Noble.hmac_sha512 seed1 (js "mnemonic/0'")
  = TS.derivePath Noble.hmac_sha512 seed1 (js "m/0'")
  /\ JS.derivePath Noble.hmac_sha512 seed1 (js "m44'/0'")
     = JS.derivePath Noble.hmac_sha512 seed1 (js "m/0'")
  /\ exists r,
       result (TS.derivePath Noble.hmac_sha512 seed1 (js "mnemonic/0'"))
       = inr r
       /\ result (JS.derivePath Noble.hmac_sha512 seed1 (js "mnemonic/0'"))
          = inr r.
Proof.
  assert (H1 : ~ In 0x2F (js "mnemonic")).
  { intros H. cbn in H.
    repeat (destruct H as [H|H]; [discriminate H|]). exact H. }
  assert (H2 : ~ In 0x2F (js "m44'")).
  { intros H. cbn in H.
    repeat (destruct H as [H|H]; [discriminate H|]). exact H. }
  split; [|split].
  - exact (proj1 (C9_root_marker Noble.hmac_sha512 seed1 (js "mnemonic")
                    [js "0'"] eq_refl H1)).
  - exact (proj1 (proj2 (C9_root_marker Noble.hmac_sha512 seed1 (js "m44'")
                           [js "0'"] eq_refl H2))).
  - apply (proj2 (proj2 (proj2 (proj2
             (C9_root_marker Noble.hmac_sha512 seed1 (js "mnemonic")
                [js "0'"] eq_refl H1))))
             Noble_hmac_sha512_length [0x80000000]).
    vm_compute. reflexivity.
Defined.

(** * Further properties of the code *)

(** ** Decimal digits *)

Lemma digitValue_digit (r : Z) :
  0 <= r <= 9 -> digitValue (0x30 + r) = Some r.
Proof.
  intros Hr. unfold digitValue.
  replace (0x30 <=? 0x30 + r) with true by (symmetry; apply Z.leb_le; lia).
  replace (0x30 + r <=? 0x39) with true by (symmetry; apply Z.leb_le; lia).
  cbn [andb]. f_equal. lia.
Qed.

Lemma isDecimalDigit_digit (r : Z) :
  0 <= r <= 9 -> Spec.isDecimalDigit (0x30 + r) = true.
Proof.
  intros Hr. unfold Spec.isDecimalDigit.
  apply andb_true_intro. split; apply Z.leb_le; lia.
Qed.

Lemma decimalDigits_from_digits (fuel : nat) (n : Z) (acc : jsstring) :
  Forall (fun c => Spec.isDecimalDigit c = true) acc ->
  Forall (fun c => Spec.isDecimalDigit c = true)
    (decimalDigits_from fuel n acc).
Proof.
  revert n acc. induction fuel as [|fuel IH]; intros n acc Hacc;
    cbn [decimalDigits_from]; [exact Hacc|].
  assert (Hd : Spec.isDecimalDigit (0x30 + n mod 10) = true).
  { apply isDecimalDigit_digit.
    pose proof (Z.mod_pos_bound n 10 eq_refl). lia. }
  destruct (n <? 10); [constructor; assumption|].
  apply IH. constructor; assumption.
Qed.

Lemma decimalDigits_from_nonempty (fuel : nat) (n : Z) (acc : jsstring) :
  acc <> [] -> decimalDigits_from fuel n acc <> [].
Proof.
  revert n acc. induction fuel as [|fuel IH]; intros n acc Hacc;
    cbn [decimalDigits_from]; [exact Hacc|].
  destruct (n <? 10); [discriminate|]. apply IH. discriminate.
Qed.

Lemma decimalDigits_digits (n : Z) :
  Forall (fun c => Spec.isDecimalDigit c = true) (decimalDigits n).
Proof. apply decimalDigits_from_digits. constructor. Qed.

Lemma decimalDigits_nonempty (n : Z) : decimalDigits n <> [].
Proof.
  unfold decimalDigits. cbn [decimalDigits_from].
  destruct (n <? 10); [discriminate|].
  apply decimalDigits_from_nonempty. discriminate.
Qed.

Lemma decimalDigits_nonNegativeDecimal (n : Z) :
  Spec.nonNegativeDecimal (decimalDigits n) = true.
Proof.
  unfold Spec.nonNegativeDecimal.
  pose proof (decimalDigits_nonempty n) as Hne.
  pose proof (decimalDigits_digits n) as Hd.
  destruct (decimalDigits n) as [|c s]; [contradiction|].
  apply forallb_forall. apply Forall_forall. exact Hd.
Qed.

(** Reading the digits back gives the integer. *)
Lemma decimalDigits_from_value (fuel : nat) (n : Z) (acc : jsstring) :
  0 <= n < 2 ^ Z.of_nat fuel ->
  fold_left
    (fun a c => a * 10 + match digitValue c with Some d => d | None => 0 end)
    (decimalDigits_from fuel n acc) 0
  = fold_left
      (fun a c =>
         a * 10 + match digitValue c with Some d => d | None => 0 end)
      acc n.
Proof.
  revert n acc. induction fuel as [|fuel IH]; intros n acc Hn.
  - cbn [decimalDigits_from]. cbn in Hn. replace n with 0 by lia.
    reflexivity.
  - cbn [decimalDigits_from].
    assert (Hm : 0 <= n mod 10 <= 9)
      by (pose proof (Z.mod_pos_bound n 10 eq_refl); lia).
    destruct (Z.ltb_spec n 10) as [Hlt|Hge].
    + cbn [fold_left]. rewrite digitValue_digit by exact Hm.
      rewrite Z.mod_small by lia. reflexivity.
    + rewrite IH.
      * cbn [fold_left]. rewrite digitValue_digit by exact Hm.
        f_equal. pose proof (Z.div_mod n 10). lia.
      * rewrite Nat2Z.inj_succ, Z.pow_succ_r in Hn by lia.
        split; [apply Z.div_pos; lia|].
        apply Z.div_lt_upper_bound; lia.
Qed.

Lemma decimalDigits_value (n : Z) :
  0 <= n -> digitsValue 10 (decimalDigits n) = n.
Proof.
  intros Hn. unfold digitsValue, decimalDigits.
  rewrite decimalDigits_from_value; [reflexivity|].
  split; [exact Hn|].
  destruct (Z.eq_dec n 0) as [->|Hne]; [reflexivity|].
  rewrite Nat2Z.inj_succ, Z2Nat.id by apply Z.log2_nonneg.
  apply Z.log2_spec. lia.
Qed.

(** [parseInt(String(n), 10)] is [n] again, for an integer from 0 to
    2^53 - 1. *)
Lemma parseInt_toString (n : Z) :
  0 <= n < 2 ^ 53 -> parseInt (Number_toString n) 10 = Finite n.
Proof.
  intros Hn. unfold Number_toString, positive_toString.
  replace (n <? 0) with false by (symmetry; apply Z.ltb_ge; lia).
  replace (n <? 2 ^ 53) with true by (symmetry; apply Z.ltb_lt; lia).
  rewrite parseInt_decimal.
  - rewrite decimalDigits_value by lia. reflexivity.
  - apply decimalDigits_nonNegativeDecimal.
  - rewrite decimalDigits_value by lia. lia.
Qed.

(** ** The string of a Number *)

Lemma digits_no_slash (l : jsstring) :
  Forall (fun c => Spec.isDecimalDigit c = true) l ->
  Forall (fun c => c <> 0x2F) l.
Proof.
  apply Forall_impl. intros c Hc. unfold Spec.isDecimalDigit in Hc.
  apply andb_prop in Hc. lia.
Qed.

Lemma repeat_zero_no_slash (n : nat) :
  Forall (fun c => c <> 0x2F) (repeat 0x30 n).
Proof.
  apply Forall_forall. intros c Hc. apply repeat_spec in Hc. lia.
Qed.

Lemma positive_toString_no_slash (x : Z) :
  Forall (fun c => c <> 0x2F) (positive_toString x).
Proof.
  unfold positive_toString.
  destruct (x <? 2 ^ 53);
    [apply digits_no_slash, decimalDigits_digits|].
  destruct (shortestDigits _ _ _ _) as [[s k] n].
  pose proof (digits_no_slash _ (decimalDigits_digits s)) as Hs.
  destruct (n <=? 21).
  - apply Forall_app. split; [exact Hs|apply repeat_zero_no_slash].
  - destruct (decimalDigits s) as [|first rest]; [constructor|].
    inversion Hs as [|? ? Hfirst Hrest]; subst.
    apply Forall_app. split.
    + constructor; [exact Hfirst|].
      destruct rest; [constructor|]. constructor; [lia|exact Hrest].
    + apply Forall_app. split.
      * repeat constructor; cbn; lia.
      * apply digits_no_slash, decimalDigits_digits.
Qed.

Lemma Number_toString_no_slash (x : Number) :
  ~ In 0x2F (Number_toString x).
Proof.
  assert (H : Forall (fun c => c <> 0x2F) (Number_toString x)).
  { destruct x as [| negative | z]; cbn [Number_toString].
    - repeat constructor; cbn; lia.
    - destruct negative; repeat constructor; cbn; lia.
    - destruct (z <? 0).
      + constructor; [lia|apply positive_toString_no_slash].
      + apply positive_toString_no_slash. }
  intros Hin. rewrite Forall_forall in H. exact (H _ Hin eq_refl).
Qed.

(** The string of a positive integer starts with a digit. *)
Lemma positive_toString_head (x : Z) :
  exists d rest,
    positive_toString x = d :: rest /\ Spec.isDecimalDigit d = true.
Proof.
  assert (Hhead : forall s, exists d rest,
             decimalDigits s = d :: rest /\ Spec.isDecimalDigit d = true).
  { intros s. pose proof (decimalDigits_nonempty s) as Hne.
    pose proof (decimalDigits_digits s) as Hd.
    destruct (decimalDigits s) as [|d rest]; [contradiction|].
    exists d, rest. split; [reflexivity|]. inversion Hd; assumption. }
  unfold positive_toString.
  destruct (x <? 2 ^ 53); [apply Hhead|].
  destruct (shortestDigits _ _ _ _) as [[s k] n].
  destruct (Hhead s) as [d [rest [E Hd]]]. rewrite E.
  destruct (n <=? 21); cbn [app]; eauto.
Qed.

Lemma startsWithNumber_digit (d : Z) (rest : jsstring) :
  Spec.isDecimalDigit d = true ->
  Spec.startsWithNumber (d :: rest) = true.
Proof.
  intros Hd. unfold Spec.startsWithNumber. cbn [trimStart].
  rewrite (decimal_digit_not_white d Hd).
  replace ((d =? 0x2B) || (d =? 0x2D)) with false; [exact Hd|].
  unfold Spec.isDecimalDigit in Hd. apply andb_prop in Hd.
  symmetry. apply orb_false_intro; apply Z.eqb_neq; lia.
Qed.

(** The string of a finite Number starts with a number; the strings of NaN
    and of the infinities do not. *)
Lemma Number_toString_startsWithNumber (x : Number) :
  Spec.startsWithNumber (Number_toString x)
  = match x with Finite _ => true | _ => false end.
Proof.
  destruct x as [| negative | z]; cbn [Number_toString].
  - reflexivity.
  - destruct negative; reflexivity.
  - destruct (z <? 0).
    + destruct (positive_toString_head (- z)) as [d [rest [E Hd]]].
      rewrite E. unfold Spec.startsWithNumber.
      cbn [trimStart]. change (isStrWhiteSpaceChar 0x2D) with false.
      cbv iota. change ((0x2D =? 0x2B) || (0x2D =? 0x2D)) with true.
      cbv iota. exact Hd.
    + destruct (positive_toString_head z) as [d [rest [E Hd]]].
      rewrite E. apply startsWithNumber_digit, Hd.
Qed.

(** Integers that a double holds but that need fewer digits than they
    have, and the exponent form from 10^21 on. *)
Lemma Number_toString_large :
  Number_toString (2 ^ 60) = js "1152921504606847000"
  /\ Number_toString (10 ^ 21) = js "1e+21"
  /\ Number_toString (2 ^ 70) = js "1.1805916207174113e+21"
  /\ Number_toString 9007199254740991 = js "9007199254740991".
Proof. split; [|split; [|split]]; vm_compute; reflexivity. Qed.

(** ** The path of an account *)

Lemma stripHardening_quote (s : jsstring) :
  Spec.stripHardening (s ++ js "'") = s.
Proof.
  rewrite <- strip_ts_spec. change (js "'") with [0x27].
  rewrite replace_class_snoc. reflexivity.
Qed.

Lemma accountPath_segments (acctIndex : Number) :
  Spec.segments (App.accountPath acctIndex)
  = [js "44'"; js "501'"; Number_toString acctIndex ++ js "'"; js "0'"].
Proof.
  unfold Spec.segments, App.accountPath.
  change (js "m/44'/501'/" ++ Number_toString acctIndex ++ js "'/0'")
    with (js "m" ++ 0x2F :: (js "44'" ++ 0x2F :: (js "501'" ++ 0x2F ::
           (Number_toString acctIndex ++ js "'/0'")))).
  change (js "'/0'") with (js "'" ++ 0x2F :: js "0'").
  rewrite (app_assoc (Number_toString acctIndex)).
  assert (Hseg : ~ In 0x2F (Number_toString acctIndex ++ js "'")).
  { intros Hin. apply in_app_or in Hin. destruct Hin as [Hin|Hin].
    - exact (Number_toString_no_slash _ Hin).
    - cbn in Hin. destruct Hin as [Hin|[]]. discriminate Hin. }
  rewrite !split_first;
    try exact Hseg;
    try (cbn; intros Hin;
         repeat (destruct Hin as [Hin|Hin]; [discriminate Hin|]);
         exact Hin).
  reflexivity.
Qed.

Lemma accountPath_parse (acctIndex : Number) :
  TS.parsePath (App.accountPath acctIndex)
  = match parseInt (Number_toString acctIndex) 10 with
    | NaN => inl (InvalidPathSegment (Number_toString acctIndex ++ js "'"))
    | idx =>
        inr [0x8000002C; 0x800001F5; Z.lor (ToUint32 idx) 0x80000000;
             0x80000000]
    end.
Proof.
  rewrite TS_parsePath_segments, accountPath_segments.
  replace (startsWith (App.accountPath acctIndex) (js "m")) with true
    by reflexivity.
  cbn [Array_map].
  change (TS.parseSegment (js "44'")) with (@inr Error Z 0x8000002C).
  change (TS.parseSegment (js "501'")) with (@inr Error Z 0x800001F5).
  change (TS.parseSegment (js "0'")) with (@inr Error Z 0x80000000).
  rewrite TS_parseSegment_spec, stripHardening_quote.
  cbn [Exn_bind].
  destruct (parseInt (Number_toString acctIndex) 10); reflexivity.
Qed.

Lemma lor_hardened_low_bits (a : Z) :
  Z.lor (a mod 2 ^ 32) 0x80000000 = Z.lor (a mod 2 ^ 31) 0x80000000.
Proof.
  change 0x80000000 with (2 ^ 31).
  apply Z.bits_inj'. intros n Hn. rewrite !Z.lor_spec.
  destruct (Z.ltb_spec n 31) as [Hlt|Hge].
  - rewrite !Z.mod_pow2_bits_low by lia. reflexivity.
  - destruct (Z.eq_dec n 31) as [->|Hne].
    + rewrite Z.pow2_bits_true by lia. rewrite !orb_true_r. reflexivity.
    + rewrite !Z.mod_pow2_bits_high by lia. reflexivity.
Qed.

(** The hardened index is 2^31 plus the low 31 bits of the value. *)
Lemma lor_hardened_sum (a : Z) :
  Z.lor (a mod 2 ^ 32) 0x80000000 = 0x80000000 + a mod 2 ^ 31.
Proof.
  rewrite lor_hardened_low_bits.
  assert (Hland : Z.land (a mod 2 ^ 31) 0x80000000 = 0).
  { change 0x80000000 with (2 ^ 31).
    apply Z.bits_inj'. intros n Hn. rewrite Z.land_spec, Z.bits_0.
    destruct (Z.eq_dec n 31) as [->|Hne].
    - rewrite Z.mod_pow2_bits_high by lia. reflexivity.
    - rewrite Z.pow2_bits_false by lia. apply andb_false_r. }
  rewrite <- Z.lxor_lor by exact Hland.
  rewrite <- Z.add_nocarry_lxor by exact Hland. lia.
Qed.

Lemma account_path_indices (i : Z) :
  0 <= i < 2 ^ 53 ->
  TS.parsePath (App.accountPath i)
  = inr [0x8000002C; 0x800001F5; 0x80000000 + i mod 2 ^ 31; 0x80000000]
  /\ JS.parsePath (App.accountPath i)
     = inr [0x8000002C; 0x800001F5; 0x80000000 + i mod 2 ^ 31; 0x80000000].
Proof.
  intros Hi.
  assert (H : TS.parsePath (App.accountPath i)
              = inr [0x8000002C; 0x800001F5; 0x80000000 + i mod 2 ^ 31;
                     0x80000000]).
  { rewrite accountPath_parse, parseInt_toString by exact Hi.
    cbn [ToUint32]. rewrite lor_hardened_sum. reflexivity. }
  split; [exact H|]. rewrite <- parsePath_ts_js. exact H.
Qed.

(** X1.  For an account index from 0 to 2^53 - 1, the path that
    [deriveAccount] builds parses, to the purpose 44', the coin type 501',
    the account index reduced modulo 2^31 and hardened, and the change 0'.
    Below 2^31 the account index is read back unchanged. *)
Theorem X1_account_path_indices (i : Z) :
  0 <= i < 2 ^ 53 ->
  TS.parsePath (App.accountPath i)
  = inr [0x8000002C; 0x800001F5; 0x80000000 + i mod 2 ^ 31; 0x80000000]
  /\ JS.parsePath (App.accountPath i)
     = inr [0x8000002C; 0x800001F5; 0x80000000 + i mod 2 ^ 31; 0x80000000]
  /\ (i < 2 ^ 31 ->
      TS.parsePath (App.accountPath i)
      = inr [0x8000002C; 0x800001F5; 0x80000000 + i; 0x80000000]).
Proof.
  intros Hi. destruct (account_path_indices i Hi) as [Hts Hjs].
  split; [exact Hts|]. split; [exact Hjs|].
  intros Hsmall. rewrite Hts, Z.mod_small by lia. reflexivity.
Qed.

Lemma X1_account_path_indices_witness :
  TS.parsePath (App.accountPath 2147483651)
  = inr [0x8000002C; 0x800001F5; 0x80000003; 0x80000000].
Proof.
  apply (X1_account_path_indices 2147483651). lia.
Defined.

(** X2.  Two account indices below 2^53 give the same derivation exactly
    when they agree modulo 2^31: the app accepts any non-negative index,
    and account 2147483648 is account 0 again. *)
Theorem X2_account_index_collision
    (hmac_sha512 : bytes -> bytes -> bytes) (seed : bytes) (i j : Z) :
  0 <= i < 2 ^ 53 ->
  0 <= j < 2 ^ 53 ->
  (TS.parsePath (App.accountPath i) = TS.parsePath (App.accountPath j)
   <-> i mod 2 ^ 31 = j mod 2 ^ 31)
  /\ (i mod 2 ^ 31 = j mod 2 ^ 31 ->
      TS.derivePath hmac_sha512 seed (App.accountPath i)
      = TS.derivePath hmac_sha512 seed (App.accountPath j)
      /\ JS.derivePath hmac_sha512 seed (App.accountPath i)
         = JS.derivePath hmac_sha512 seed (App.accountPath j)).
Proof.
  intros Hi Hj.
  destruct (account_path_indices i Hi) as [Pi _].
  destruct (account_path_indices j Hj) as [Pj _].
  assert (Hiff : TS.parsePath (App.accountPath i)
                 = TS.parsePath (App.accountPath j)
                 <-> i mod 2 ^ 31 = j mod 2 ^ 31).
  { rewrite Pi, Pj. split.
    - intros H.
      pose proof (f_equal (fun r : Exn (list Z) =>
                             match r with
                             | inr (_ :: _ :: x :: _) => x
                             | _ => 0
                             end) H) as E.
      cbv beta iota in E. exact (Z.add_reg_l _ _ _ E).
    - intros E. rewrite E. reflexivity. }
  split; [exact Hiff|].
  intros E. apply Hiff in E. split.
  - apply TS_derivePath_parse_ext, E.
  - apply JS_derivePath_parse_ext. rewrite <- !parsePath_ts_js. exact E.
Qed.

Lemma X2_account_index_collision_witness :
  TS.derivePath Noble.hmac_sha512 seed1 (App.accountPath 0)
  = TS.derivePath Noble.hmac_sha512 seed1 (App.accountPath 2147483648)
  /\ JS.derivePath Noble.hmac_sha512 seed1 (App.accountPath 0)
     = JS.derivePath Noble.hmac_sha512 seed1 (App.accountPath 2147483648).
Proof.
  assert (Hi : 0 <= 0 < 2 ^ 53) by lia.
  assert (Hj : 0 <= 2147483648 < 2 ^ 53) by lia.
  assert (E : 0 mod 2 ^ 31 = 2147483648 mod 2 ^ 31) by reflexivity.
  exact (proj2 (X2_account_index_collision Noble.hmac_sha512 seed1
                  0 2147483648 Hi Hj) E).
Defined.

(** X3.  The path that [deriveAccount] builds is rejected exactly when the
    account index is not finite: for NaN and the infinities [derivePath]
    throws InvalidPathSegment on the segment made of their name; for every
    finite index, whatever its size or sign, the path parses. *)
Theorem X3_account_path_fails_iff_not_finite
    (hmac_sha512 : bytes -> bytes -> bytes) (seed : bytes)
    (acctIndex : Number) :
  match acctIndex with
  | Finite _ =>
      exists idx,
        0x80000000 <= idx < 2 ^ 32
        /\ TS.parsePath (App.accountPath acctIndex)
           = inr [0x8000002C; 0x800001F5; idx; 0x80000000]
        /\ JS.parsePath (App.accountPath acctIndex)
           = inr [0x8000002C; 0x800001F5; idx; 0x80000000]
  | _ =>
      result (TS.derivePath hmac_sha512 seed (App.accountPath acctIndex))
      = inl (InvalidPathSegment (Number_toString acctIndex ++ js "'"))
      /\ result (JS.derivePath hmac_sha512 seed (App.accountPath acctIndex))
         = inl (InvalidPathSegment (Number_toString acctIndex ++ js "'"))
  end.
Proof.
  pose proof (accountPath_parse acctIndex) as Hparse.
  pose proof (Number_toString_startsWithNumber acctIndex) as Hnum.
  assert (Hfail :
            forall e, TS.parsePath (App.accountPath acctIndex) = inl e ->
                      result (TS.derivePath hmac_sha512 seed
                                (App.accountPath acctIndex)) = inl e
                      /\ result (JS.derivePath hmac_sha512 seed
                                   (App.accountPath acctIndex)) = inl e).
  { intros e He.
    rewrite TS_derivePath_unfold, JS_derivePath_unfold.
    rewrite <- parsePath_ts_js, He. split; reflexivity. }
  destruct acctIndex as [| negative | z].
  - apply Hfail. rewrite Hparse.
    rewrite (proj2 (parseInt_NaN_iff _) Hnum). reflexivity.
  - apply Hfail. rewrite Hparse.
    rewrite (proj2 (parseInt_NaN_iff _) Hnum). reflexivity.
  - destruct (parseInt (Number_toString z) 10) as [| neg | n] eqn:E.
    + apply parseInt_NaN_iff in E. rewrite E in Hnum. discriminate Hnum.
    + exists (Z.lor (ToUint32 (Infinity neg)) 0x80000000).
      split; [apply hardened_index_range|].
      split; [exact Hparse|rewrite <- parsePath_ts_js; exact Hparse].
    + exists (Z.lor (ToUint32 n) 0x80000000).
      split; [apply hardened_index_range|].
      split; [exact Hparse|rewrite <- parsePath_ts_js; exact Hparse].
Qed.

(** ** Which segment is reported, and when parsing succeeds *)

Lemma Array_map_first_failure {A B : Type} (f : A -> Exn B)
    (pre post : list A) (bad : A) (e : Error) :
  Forall (fun x => exists y, f x = inr y) pre ->
  f bad = inl e ->
  Array_map f (pre ++ bad :: post) = inl e.
Proof.
  intros Hpre Hbad. induction Hpre as [|x pre [y Hy] _ IH];
    cbn [app Array_map].
  - rewrite Hbad. reflexivity.
  - rewrite Hy, IH. reflexivity.
Qed.

Lemma Array_map_success_iff {A B : Type} (f : A -> Exn B) (l : list A) :
  (exists r, Array_map f l = inr r)
  <-> Forall (fun x => exists y, f x = inr y) l.
Proof.
  induction l as [|x l IH]; cbn [Array_map].
  - split; [constructor|eauto].
  - split.
    + intros [r Hr]. destruct (f x) as [e|y] eqn:Ex; [discriminate Hr|].
      cbn [Exn_bind] in Hr.
      destruct (Array_map f l) as [e|ys]; [discriminate Hr|].
      constructor; [eauto|]. apply IH. eauto.
    + intros H. inversion H as [|? ? [y Hy] Hl]; subst.
      apply IH in Hl. destruct Hl as [ys Hys].
      rewrite Hy, Hys. cbn. eauto.
Qed.

Lemma Array_map_length {A B : Type} (f : A -> Exn B) (l : list A)
    (r : list B) :
  Array_map f l = inr r -> length r = length l.
Proof.
  revert r. induction l as [|x l IH]; cbn [Array_map]; intros r.
  - intros [= <-]. reflexivity.
  - destruct (f x) as [e|y]; [discriminate|]. cbn [Exn_bind].
    destruct (Array_map f l) as [e|ys]; [discriminate|]. cbn [Exn_bind].
    intros [= <-]. cbn [length]. rewrite (IH ys eq_refl). reflexivity.
Qed.

Lemma split_length (sep : Z) (s : jsstring) :
  length (split sep s) = Datatypes.S (count_occ Z.eq_dec s sep).
Proof.
  induction s as [|c s IH]; cbn [split count_occ]; [reflexivity|].
  destruct (Z.eqb_spec c sep) as [->|Hne].
  - destruct (Z.eq_dec sep sep); [|contradiction].
    cbn [length]. rewrite IH. reflexivity.
  - destruct (Z.eq_dec c sep); [contradiction|].
    destruct (split sep s) as [|seg segs]; [discriminate IH|].
    exact IH.
Qed.

Lemma TS_parseSegment_success_iff (seg : jsstring) :
  (exists index, TS.parseSegment seg = inr index)
  <-> Spec.startsWithNumber (Spec.stripHardening seg) = true.
Proof.
  rewrite TS_parseSegment_spec.
  pose proof (parseInt_NaN_iff (Spec.stripHardening seg)) as Hnan.
  destruct (parseInt (Spec.stripHardening seg) 10) as [| neg | n].
  - split.
    + intros [index H]. discriminate H.
    + intros H. rewrite (proj1 Hnan eq_refl) in H. discriminate H.
  - split; [|eauto]. intros _.
    destruct (Spec.startsWithNumber _); [reflexivity|].
    destruct Hnan as [_ Hnan]. discriminate (Hnan eq_refl).
  - split; [|eauto]. intros _.
    destruct (Spec.startsWithNumber _); [reflexivity|].
    destruct Hnan as [_ Hnan]. discriminate (Hnan eq_refl).
Qed.

(** X4.  The segments are read from left to right and the first one that
    does not start with a number is the one reported: segments after it,
    valid or not, are not looked at. *)
Theorem X4_first_bad_segment_reported
    (hmac_sha512 : bytes -> bytes -> bytes) (seed : bytes)
    (path : jsstring) (pre post : list jsstring) (bad : jsstring) :
  startsWith path (js "m") = true ->
  Spec.segments path = pre ++ bad :: post ->
  Forall (fun seg =>
            Spec.startsWithNumber (Spec.stripHardening seg) = true) pre ->
  Spec.startsWithNumber (Spec.stripHardening bad) = false ->
  TS.parsePath path = inl (InvalidPathSegment bad)
  /\ JS.parsePath path = inl (InvalidPathSegment bad)
  /\ result (TS.derivePath hmac_sha512 seed path)
     = inl (InvalidPathSegment bad)
  /\ result (JS.derivePath hmac_sha512 seed path)
     = inl (InvalidPathSegment bad).
Proof.
  intros Hm Hsegs Hpre Hbad.
  assert (H : TS.parsePath path = inl (InvalidPathSegment bad)).
  { rewrite TS_parsePath_segments, Hm, Hsegs.
    apply Array_map_first_failure.
    - revert Hpre. apply Forall_impl. intros seg Hseg.
      apply TS_parseSegment_success_iff, Hseg.
    - apply TS_parseSegment_fails, Hbad. }
  split; [exact H|]. split; [rewrite <- parsePath_ts_js; exact H|].
  rewrite TS_derivePath_unfold, JS_derivePath_unfold.
  rewrite <- parsePath_ts_js, H. split; reflexivity.
Qed.

Lemma X4_first_bad_segment_reported_witness :
  TS.parsePath (js "m/44'/x/y/0'") = inl (InvalidPathSegment (js "x"))
  /\ JS.parsePath (js "m/44'/x/y/0'") = inl (InvalidPathSegment (js "x"))
  /\ result (TS.derivePath Noble.hmac_sha512 seed1 (js "m/44'/x/y/0'"))
     = inl (InvalidPathSegment (js "x"))
  /\ result (JS.derivePath Noble.hmac_sha512 seed1 (js "m/44'/x/y/0'"))
     = inl (InvalidPathSegment (js "x")).
Proof.
  apply (X4_first_bad_segment_reported Noble.hmac_sha512 seed1
           (js "m/44'/x/y/0'") [js "44'"] [js "y"; js "0'"] (js "x")).
  - reflexivity.
  - reflexivity.
  - repeat constructor.
  - reflexivity.
Defined.

(** X5.  Parsing succeeds exactly when the path starts with ["m"] and each
    segment, without its hardening suffix, starts with a number (after
    white space and one optional sign, a decimal digit). *)
Theorem X5_parsePath_succeeds_iff (path : jsstring) :
  ((exists indices, TS.parsePath path = inr indices)
   <-> startsWith path (js "m") = true
       /\ Forall (fun seg =>
                    Spec.startsWithNumber (Spec.stripHardening seg) = true)
            (Spec.segments path))
  /\ ((exists indices, JS.parsePath path = inr indices)
      <-> startsWith path (js "m") = true
          /\ Forall (fun seg =>
                       Spec.startsWithNumber (Spec.stripHardening seg)
                       = true)
               (Spec.segments path)).
Proof.
  assert (H : (exists indices, TS.parsePath path = inr indices)
              <-> startsWith path (js "m") = true
                  /\ Forall (fun seg =>
                               Spec.startsWithNumber
                                 (Spec.stripHardening seg) = true)
                       (Spec.segments path)).
  { rewrite TS_parsePath_segments.
    destruct (startsWith path (js "m")).
    - rewrite Array_map_success_iff. split.
      + intros Hall. split; [reflexivity|].
        revert Hall. apply Forall_impl. intros seg.
        apply TS_parseSegment_success_iff.
      + intros [_ Hall]. revert Hall. apply Forall_impl. intros seg.
        apply TS_parseSegment_success_iff.
    - split; [intros [indices Hi]; discriminate Hi|].
      intros [Hm _]. discriminate Hm. }
  split; [exact H|]. rewrite <- parsePath_ts_js. exact H.
Qed.

(** X6.  A parsed path has one index per ['/'] of the path string: empty
    segments are never skipped (they are errors), so nothing is dropped or
    added. *)
Theorem X6_one_index_per_slash (path : jsstring) (indices : list Z) :
  TS.parsePath path = inr indices \/ JS.parsePath path = inr indices ->
  length indices = count_occ Z.eq_dec path 0x2F.
Proof.
  intros H.
  assert (Hts : TS.parsePath path = inr indices).
  { destruct H as [H|H]; [exact H|]. rewrite parsePath_ts_js. exact H. }
  clear H. rewrite TS_parsePath_segments in Hts.
  destruct (startsWith path (js "m")); [|discriminate Hts].
  apply Array_map_length in Hts. rewrite Hts. unfold Spec.segments.
  pose proof (split_length 0x2F path) as Hlen.
  destruct (split 0x2F path) as [|first segs]; [discriminate Hlen|].
  cbn [tl length] in *. lia.
Qed.

Lemma X6_one_index_per_slash_witness :
  length [0x8000002C; 0x800001F5; 0x80000000; 0x80000000]
  = count_occ Z.eq_dec (js "m/44'/501'/0'/0'") 0x2F.
Proof.
  apply (X6_one_index_per_slash (js "m/44'/501'/0'/0'")).
  left. vm_compute. reflexivity.
Defined.

(** ** The hardening suffix *)

Lemma trimStart_snoc (l : jsstring) (c : Z) :
  isStrWhiteSpaceChar c = false ->
  trimStart (l ++ [c])
  = match trimStart l with
    | [] => [c]
    | t => t ++ [c]
    end.
Proof.
  intros Hc. induction l as [|a l IH]; cbn [app trimStart].
  - rewrite Hc. reflexivity.
  - destruct (isStrWhiteSpaceChar a); [exact IH|reflexivity].
Qed.

Lemma takeDigits_snoc (l : jsstring) (c : Z) :
  isRadixDigit 10 c = false ->
  takeDigits 10 (l ++ [c]) = takeDigits 10 l.
Proof.
  intros Hc. induction l as [|a l IH]; cbn [app takeDigits].
  - rewrite Hc. reflexivity.
  - rewrite IH. reflexivity.
Qed.

(** [parseInt] does not see a trailing ['] or [h]. *)
Lemma parseInt_snoc_marker (l : jsstring) (c : Z) :
  c = 0x27 \/ c = 0x68 -> parseInt (l ++ [c]) 10 = parseInt l 10.
Proof.
  intros Hc.
  assert (Hwhite : isStrWhiteSpaceChar c = false)
    by (destruct Hc as [->| ->]; reflexivity).
  assert (Hdigit : isRadixDigit 10 c = false)
    by (destruct Hc as [->| ->]; reflexivity).
  assert (Hplus : (c =? 0x2B) = false)
    by (destruct Hc as [->| ->]; reflexivity).
  assert (Hminus : (c =? 0x2D) = false)
    by (destruct Hc as [->| ->]; reflexivity).
  rewrite !parseInt_10. cbv zeta. rewrite trimStart_snoc by exact Hwhite.
  destruct (trimStart l) as [|a r].
  - rewrite Hplus, Hminus. cbn [orb takeDigits]. rewrite Hdigit.
    reflexivity.
  - cbn [app]. destruct ((a =? 0x2B) || (a =? 0x2D)).
    + rewrite takeDigits_snoc by exact Hdigit. reflexivity.
    + change (a :: r ++ [c]) with ((a :: r) ++ [c]).
      rewrite takeDigits_snoc by exact Hdigit. reflexivity.
Qed.

Lemma parseInt_stripHardening (seg : jsstring) :
  parseInt (Spec.stripHardening seg) 10 = parseInt seg 10.
Proof.
  unfold Spec.stripHardening.
  destruct (rev seg) as [|c r] eqn:E; [reflexivity|].
  apply (f_equal (@rev Z)) in E. rewrite rev_involutive in E. subst seg.
  cbn [rev].
  destruct ((c =? 0x27) || (c =? 0x68)) eqn:Ec; [|reflexivity].
  symmetry. apply parseInt_snoc_marker.
  apply orb_prop in Ec. destruct Ec as [Ec|Ec]; apply Z.eqb_eq in Ec; auto.
Qed.

Lemma TS_parseSegment_snoc_marker (seg : jsstring) (c : Z) (index : Z) :
  c = 0x27 \/ c = 0x68 ->
  TS.parseSegment (seg ++ [c]) = inr index
  <-> TS.parseSegment seg = inr index.
Proof.
  intros Hc. rewrite !TS_parseSegment_spec, !parseInt_stripHardening.
  rewrite parseInt_snoc_marker by exact Hc.
  destruct (parseInt seg 10); [|tauto|tauto].
  split; discriminate.
Qed.

(** X7.  A hardening suffix never changes the index: a segment, the
    segment followed by ['] and the segment followed by [h] give the same
    index, or all three are rejected.  Indeed removing the suffix is
    immaterial, since [parseInt] stops at it. *)
Theorem X7_hardening_suffix_immaterial (seg : jsstring) (index : Z) :
  (TS.parseSegment (seg ++ js "'") = inr index
   <-> TS.parseSegment seg = inr index)
  /\ (TS.parseSegment (seg ++ js "h") = inr index
      <-> TS.parseSegment seg = inr index)
  /\ (JS.parseSegment (seg ++ js "'") = inr index
      <-> JS.parseSegment seg = inr index)
  /\ (JS.parseSegment (seg ++ js "h") = inr index
      <-> JS.parseSegment seg = inr index)
  /\ parseInt (Spec.stripHardening seg) 10 = parseInt seg 10.
Proof.
  rewrite <- !parseSegment_ts_js.
  change (js "'") with [0x27]. change (js "h") with [0x68].
  split; [apply TS_parseSegment_snoc_marker; auto|].
  split; [apply TS_parseSegment_snoc_marker; auto|].
  split; [apply TS_parseSegment_snoc_marker; auto|].
  split; [apply TS_parseSegment_snoc_marker; auto|].
  apply parseInt_stripHardening.
Qed.

(** ** Extending a path by one segment *)

Lemma split_snoc_segment (sep : Z) (path seg : jsstring) :
  ~ In sep seg ->
  split sep (path ++ sep :: seg) = split sep path ++ [seg].
Proof.
  intros Hseg. induction path as [|c path IH]; cbn [app split].
  - rewrite Z.eqb_refl, split_no_separator by exact Hseg. reflexivity.
  - destruct (c =? sep); [rewrite IH; reflexivity|].
    rewrite IH. pose proof (split_nonempty sep path) as Hne.
    destruct (split sep path) as [|s0 ss]; [contradiction|]. reflexivity.
Qed.

Lemma segments_snoc (path seg : jsstring) :
  ~ In 0x2F seg ->
  Spec.segments (path ++ 0x2F :: seg) = Spec.segments path ++ [seg].
Proof.
  intros Hseg. unfold Spec.segments.
  rewrite split_snoc_segment by exact Hseg.
  pose proof (split_nonempty 0x2F path) as Hne.
  destruct (split 0x2F path) as [|s0 ss]; [contradiction|]. reflexivity.
Qed.

Lemma Array_map_snoc {A B : Type} (f : A -> Exn B) (l : list A) (x : A)
    (y : B) :
  f x = inr y ->
  Array_map f (l ++ [x])
  = Exn_bind (Array_map f l) (fun ys => inr (ys ++ [y])).
Proof.
  intros Hx. induction l as [|a l IH]; cbn [app Array_map].
  - rewrite Hx. reflexivity.
  - destruct (f a) as [e|b]; [reflexivity|]. cbn [Exn_bind].
    rewrite IH. destruct (Array_map f l); reflexivity.
Qed.

Lemma startsWith_m_snoc (path seg : jsstring) :
  startsWith (path ++ 0x2F :: seg) (js "m") = startsWith path (js "m").
Proof.
  destruct path as [|c [|d path]]; [reflexivity| |];
    unfold startsWith; cbn; destruct (c =? 109); reflexivity.
Qed.

Lemma TS_parsePath_snoc (path seg : jsstring) (index : Z) :
  ~ In 0x2F seg ->
  TS.parseSegment seg = inr index ->
  TS.parsePath (path ++ 0x2F :: seg)
  = Exn_bind (TS.parsePath path) (fun indices => inr (indices ++ [index])).
Proof.
  intros Hseg Hindex.
  rewrite !TS_parsePath_segments, startsWith_m_snoc, segments_snoc
    by exact Hseg.
  destruct (startsWith path (js "m")); [|reflexivity].
  apply Array_map_snoc, Hindex.
Qed.

Section Extension.

Variable hmac_sha512 : bytes -> bytes -> bytes.

Lemma TS_for_of_snoc (xs : list Z) (x : Z) (s : ExtendedKey) :
  TS.for_of (xs ++ [x]) s (TS.loop_body hmac_sha512)
  = Eff.bind (TS.for_of xs s (TS.loop_body hmac_sha512))
      (TS.loop_body hmac_sha512 x).
Proof.
  revert s. induction xs as [|a xs IH]; intros s; cbn [app TS.for_of].
  - rewrite bind_ret_r.
    change (ret s) with (@lift ExtendedKey (inr s)).
    rewrite bind_lift_inr. reflexivity.
  - destruct (TS.loop_body hmac_sha512 a s) as [[e|s'] calls];
      cbn [Eff.bind]; [reflexivity|].
    rewrite IH.
    destruct (TS.for_of xs s' (TS.loop_body hmac_sha512))
      as [[e|s''] calls']; cbn [Eff.bind]; [reflexivity|].
    destruct (TS.loop_body hmac_sha512 x s'') as [r calls''].
    rewrite app_assoc. reflexivity.
Qed.

Lemma TS_derivePath_snoc (seed : bytes) (path seg : jsstring) (index : Z) :
  ~ In 0x2F seg ->
  TS.parseSegment seg = inr index ->
  TS.derivePath hmac_sha512 seed (path ++ 0x2F :: seg)
  = Eff.bind (TS.derivePath hmac_sha512 seed path)
      (TS.loop_body hmac_sha512 index).
Proof.
  intros Hseg Hindex.
  rewrite !TS_derivePath_unfold, (TS_parsePath_snoc _ _ _ Hseg Hindex).
  destruct (TS.parsePath path) as [e|indices]; [reflexivity|].
  cbn [Exn_bind]. cbv zeta. rewrite TS_for_of_snoc.
  destruct (TS.for_of indices _ _) as [[e|s] calls]; [reflexivity|].
  cbn [Eff.bind fst snd].
  destruct (TS.loop_body hmac_sha512 index s) as [r calls'].
  reflexivity.
Qed.

Lemma loop_body_js_ts (index : Z) (s : ExtendedKey) :
  (forall k message, length (hmac_sha512 k message) = 64%nat) ->
  length (key s) = 32%nat ->
  JS.loop_body hmac_sha512 [index] 0 s = TS.loop_body hmac_sha512 index s.
Proof.
  intros Hlen Hs.
  rewrite TS_loop_body_closed, JS_loop_body_closed by exact Hs.
  cbn [nth]. rewrite halves_js by apply Hlen. reflexivity.
Qed.

End Extension.

(** X8.  Derivation composes along the path: deriving [path/seg] is
    deriving [path] and then running the loop body once more, on the
    index of [seg]; when [path] is rejected, so is [path/seg], with the
    same error.  (For the JavaScript file, with HMAC-SHA512 returning 64
    bytes.) *)
Theorem X8_derivePath_extends
    (hmac_sha512 : bytes -> bytes -> bytes) (seed : bytes)
    (path seg : jsstring) (index : Z) :
  ~ In 0x2F seg ->
  TS.parseSegment seg = inr index ->
  TS.derivePath hmac_sha512 seed (path ++ js "/" ++ seg)
  = (s <- TS.derivePath hmac_sha512 seed path ;;
     TS.loop_body hmac_sha512 index s)
  /\ ((forall k message, length (hmac_sha512 k message) = 64%nat) ->
      JS.derivePath hmac_sha512 seed (path ++ js "/" ++ seg)
      = (s <- JS.derivePath hmac_sha512 seed path ;;
         JS.loop_body hmac_sha512 [index] 0 s)).
Proof.
  intros Hseg Hindex. change (js "/" ++ seg) with (0x2F :: seg).
  pose proof (TS_derivePath_snoc hmac_sha512 seed path seg index Hseg Hindex)
    as Hts.
  split; [exact Hts|].
  intros Hlen. rewrite <- !(derivePath_ts_js hmac_sha512 Hlen), Hts.
  rewrite TS_derivePath_closed by exact Hlen.
  destruct (TS.parsePath path) as [e|indices]; [reflexivity|].
  cbn [Eff.bind]. rewrite loop_body_js_ts; [reflexivity|exact Hlen|].
  apply fold_child_wellSized;
    [exact Hlen|apply master_wellSized, Hlen].
Qed.

Lemma X8_derivePath_extends_witness :
  TS.derivePath Noble.hmac_sha512 seed1 (js "m/44'" ++ js "/" ++ js "501'")
  = (s <- TS.derivePath Noble.hmac_sha512 seed1 (js "m/44'") ;;
     TS.loop_body Noble.hmac_sha512 0x800001F5 s).
Proof.
  assert (H1 : ~ In 0x2F (js "501'")).
  { intros H. cbn in H.
    repeat (destruct H as [H|H]; [discriminate H|]). exact H. }
  assert (H2 : TS.parseSegment (js "501'") = inr 0x800001F5)
    by (vm_compute; reflexivity).
  exact (proj1 (X8_derivePath_extends Noble.hmac_sha512 seed1 (js "m/44'")
                  (js "501'") 0x800001F5 H1 H2)).
Defined.

(** ** The HMAC calls of a derivation *)

Lemma parsePath_indices_range (path : jsstring) (indices : list Z) :
  TS.parsePath path = inr indices ->
  Forall (fun index => 0x80000000 <= index < 2 ^ 32) indices.
Proof.
  rewrite TS_parsePath_segments.
  destruct (startsWith path (js "m")); [|discriminate].
  apply Array_map_Forall.
  intros seg index. rewrite TS_parseSegment_spec.
  destruct (parseInt (Spec.stripHardening seg) 10) as [| neg | z];
    [discriminate| |]; intros [= <-].
  - exact (hardened_index_range (Infinity neg)).
  - exact (hardened_index_range (Finite z)).
Qed.

Lemma childCalls_length (hmac_sha512 : bytes -> bytes -> bytes)
    (s : ExtendedKey) (indices : list Z) :
  length (Code.childCalls hmac_sha512 s indices) = length indices.
Proof.
  revert s. induction indices as [|index rest IH]; intros s;
    cbn [Code.childCalls length]; [reflexivity|].
  rewrite IH. reflexivity.
Qed.

Lemma childCalls_shape (hmac_sha512 : bytes -> bytes -> bytes)
    (s : ExtendedKey) (indices : list Z) :
  (forall k message, length (hmac_sha512 k message) = 64%nat) ->
  Code.wellSized s ->
  Forall (fun call =>
            length (call_key call) = 37%nat
            /\ hd_error (call_key call) = Some x00
            /\ length (call_message call) = 32%nat)
    (Code.childCalls hmac_sha512 s indices).
Proof.
  intros Hlen. revert s.
  induction indices as [|index rest IH]; intros s Hs;
    cbn [Code.childCalls]; constructor.
  - destruct Hs as [Hk Hc].
    unfold Code.childCall, Code.buffer. cbn [call_key call_message].
    split; [|split; [reflexivity|exact Hc]].
    rewrite !length_app, Hk. reflexivity.
  - apply IH, child_wellSized, Hlen.
Qed.

(** X9.  With HMAC-SHA512 returning 64 bytes, on a path that parses
    [derivePath] returns the left fold of the loop step over the parsed
    indices, from the two halves of the first digest.  It makes one HMAC
    call, then one per index; each of these has a first argument of 37
    bytes starting with a zero byte and a second argument of 32 bytes. *)
Theorem X9_derivePath_is_a_fold
    (hmac_sha512 : bytes -> bytes -> bytes)
    (hmac_sha512_length :
       forall k message, length (hmac_sha512 k message) = 64%nat)
    (seed : bytes) (path : jsstring) (indices : list Z) :
  TS.parsePath path = inr indices ->
  let step s index :=
    let buf := [x00] ++ key s ++ uint32_be index in
    let I := hmac_sha512 buf (chainCode s) in
    mkExtendedKey (firstn 32 I) (skipn 32 I) in
  let master :=
    let I := hmac_sha512 seed TS.SEED_KEY in
    mkExtendedKey (firstn 32 I) (skipn 32 I) in
  result (TS.derivePath hmac_sha512 seed path)
  = inr (fold_left step indices master)
  /\ result (JS.derivePath hmac_sha512 seed path)
     = inr (fold_left step indices master)
  /\ hmac_calls (JS.derivePath hmac_sha512 seed path)
     = hmac_calls (TS.derivePath hmac_sha512 seed path)
  /\ length (hmac_calls (TS.derivePath hmac_sha512 seed path))
     = Datatypes.S (length indices)
  /\ Forall (fun call =>
               length (call_key call) = 37%nat
               /\ hd_error (call_key call) = Some x00
               /\ length (call_message call) = 32%nat)
       (tl (hmac_calls (TS.derivePath hmac_sha512 seed path))).
Proof.
  intros Hparse step master.
  assert (Hindices : Forall (fun index => 0 <= index < 2 ^ 32) indices).
  { pose proof (parsePath_indices_range path indices Hparse) as H.
    revert H. apply Forall_impl. intros index Hi. lia. }
  assert (Hfold : forall s,
             fold_left (Code.child hmac_sha512) indices s
             = fold_left step indices s).
  { clear Hparse. induction Hindices as [|index rest Hi _ IH]; intros s;
      cbn [fold_left]; [reflexivity|].
    rewrite <- IH. f_equal.
    unfold Code.child, Code.buffer, Code.halves, step.
    cbn [ToUint32]. rewrite Z.mod_small by exact Hi. reflexivity. }
  rewrite <- (derivePath_ts_js hmac_sha512 hmac_sha512_length).
  rewrite TS_derivePath_closed, Hparse by exact hmac_sha512_length.
  cbn [result hmac_calls fst snd tl length].
  rewrite childCalls_length, Hfold.
  split; [reflexivity|]. split; [reflexivity|].
  split; [reflexivity|]. split; [reflexivity|].
  apply childCalls_shape;
    [exact hmac_sha512_length|apply master_wellSized, hmac_sha512_length].
Qed.

Lemma X9_derivePath_is_a_fold_witness :
  length (hmac_calls (TS.derivePath Noble.hmac_sha512 seed1 (js "m/0'/7'")))
  = Datatypes.S (length [0x80000000; 0x80000007]).
Proof.
  assert (H : TS.parsePath (js "m/0'/7'") = inr [0x80000000; 0x80000007])
    by (vm_compute; reflexivity).
  exact (proj1 (proj2 (proj2 (proj2
           (X9_derivePath_is_a_fold Noble.hmac_sha512
              Noble_hmac_sha512_length seed1 _ _ H))))).
Defined.

(** ** The index in the HMAC input *)

Lemma byte_to_Z_ToUint8 (z : Z) : byte_to_Z (ToUint8 z) = z mod 256.
Proof.
  unfold byte_to_Z, ToUint8.
  pose proof (Z.mod_pos_bound z 256 eq_refl) as Hr.
  destruct (Byte.of_N (Z.to_N (z mod 256))) as [b|] eqn:E.
  - apply Byte.to_of_N in E. rewrite E. apply Z2N.id. lia.
  - apply Byte.of_N_None_iff in E. lia.
Qed.

Lemma uint32_be_injective (i j : Z) :
  0 <= i < 2 ^ 32 -> 0 <= j < 2 ^ 32 ->
  uint32_be i = uint32_be j -> i = j.
Proof.
  intros Hi Hj E. unfold uint32_be in E.
  injection E as E3 E2 E1 E0.
  apply (f_equal byte_to_Z) in E3, E2, E1, E0.
  rewrite !byte_to_Z_ToUint8 in E3, E2, E1, E0.
  rewrite !Z.shiftr_div_pow2 in E3, E2, E1 by lia.
  change (2 ^ 24) with 16777216 in *. change (2 ^ 16) with 65536 in *.
  change (2 ^ 8) with 256 in *. change (2 ^ 32) with 4294967296 in *.
  assert (Hsplit : forall v, 0 <= v < 4294967296 ->
             v = (v / 16777216) mod 256 * 16777216
                 + (v / 65536) mod 256 * 65536
                 + (v / 256) mod 256 * 256 + v mod 256).
  { intros v Hv. clear - Hv. Z.div_mod_to_equations. lia. }
  rewrite (Hsplit i Hi), (Hsplit j Hj), E3, E2, E1, E0. reflexivity.
Qed.

(** X10.  From one parent, two different indices never give the same HMAC
    input: the four bytes that end the 37-byte buffer determine the index
    (an unsigned 32-bit value). *)
Theorem X10_indices_give_distinct_hmac_inputs
    (hmac_sha512 : bytes -> bytes -> bytes) (s : ExtendedKey) (i j : Z) :
  length (key s) = 32%nat ->
  0 <= i < 2 ^ 32 ->
  0 <= j < 2 ^ 32 ->
  (hmac_calls (TS.loop_body hmac_sha512 i s)
   = hmac_calls (TS.loop_body hmac_sha512 j s) -> i = j)
  /\ (hmac_calls (JS.loop_body hmac_sha512 [i] 0 s)
      = hmac_calls (JS.loop_body hmac_sha512 [j] 0 s) -> i = j).
Proof.
  intros Hs Hi Hj.
  assert (H : Code.childCall s i = Code.childCall s j -> i = j).
  { unfold Code.childCall, Code.buffer. intros E.
    injection E as E. apply app_inv_head in E.
    cbn [ToUint32] in E. rewrite !Z.mod_small in E by assumption.
    exact (uint32_be_injective i j Hi Hj E). }
  split.
  - rewrite !TS_loop_body_closed by exact Hs.
    cbn [hmac_calls snd]. intros E. apply H.
    exact (f_equal (fun l => hd (Code.childCall s i) l) E).
  - rewrite !JS_loop_body_closed by exact Hs.
    cbn [hmac_calls snd nth]. intros E. apply H.
    exact (f_equal (fun l => hd (Code.childCall s i) l) E).
Qed.

Lemma X10_indices_give_distinct_hmac_inputs_witness :
  let s := mkExtendedKey (repeat x00 32) (repeat x01 32) in
  (hmac_calls (TS.loop_body Noble.hmac_sha512 0x80000000 s)
   = hmac_calls (TS.loop_body Noble.hmac_sha512 0x80000001 s)
   -> 0x80000000 = 0x80000001)
  /\ (hmac_calls (JS.loop_body Noble.hmac_sha512 [0x80000000] 0 s)
      = hmac_calls (JS.loop_body Noble.hmac_sha512 [0x80000001] 0 s)
      -> 0x80000000 = 0x80000001).
Proof.
  apply (X10_indices_give_distinct_hmac_inputs Noble.hmac_sha512
           (mkExtendedKey (repeat x00 32) (repeat x01 32))
           0x80000000 0x80000001).
  - reflexivity.
  - lia.
  - lia.
Defined.

(** ** The typed-array writes stay in bounds *)

Lemma Uint8Array_store_length (a : bytes) (i : nat) (v : Z) :
  length (Uint8Array_store a i v) = length a.
Proof.
  revert i. induction a as [|b a IH]; intros i; [reflexivity|].
  destruct i as [|i]; cbn [Uint8Array_store length]; [reflexivity|].
  rewrite IH. reflexivity.
Qed.

Lemma Uint8Array_set_length (target source buf : bytes) (offset : nat) :
  Uint8Array_set target source offset = inr buf ->
  length buf = length target.
Proof.
  unfold Uint8Array_set.
  destruct (Nat.ltb_spec (length target) (length source + offset))
    as [Hlt|Hge]; [discriminate|].
  intros H. apply (f_equal (fun r => match r with
                                     | inr b => length b
                                     | inl _ => length target
                                     end)) in H.
  rewrite <- H. rewrite !length_app, length_firstn, length_skipn. lia.
Qed.

Section InBounds.

(** Any function in the place of HMAC-SHA512, whatever the length of what
    it returns. *)
Variable hmac_sha512 : bytes -> bytes -> bytes.

Lemma TS_loop_body_returns (index : Z) (s : ExtendedKey) :
  (length (key s) <= 32)%nat ->
  exists s' calls,
    TS.loop_body hmac_sha512 index s = (inr s', calls)
    /\ (length (key s') <= 32)%nat.
Proof.
  intros Hs. unfold TS.loop_body.
  destruct (Uint8Array_set (Uint8Array_new 37) (key s) 1) as [e|buf] eqn:Eset.
  { unfold Uint8Array_set, Uint8Array_new in Eset.
    rewrite repeat_length in Eset.
    replace (37 <? length (key s) + 1)%nat with false in Eset
      by (symmetry; apply Nat.ltb_ge; lia).
    discriminate Eset. }
  assert (Hbuf : length buf = 37%nat).
  { rewrite (Uint8Array_set_length _ _ _ _ Eset). apply repeat_length. }
  rewrite bind_lift_inr.
  destruct (DataView_setUint32 buf 33 index false) as [e|buf'] eqn:Eview.
  { unfold DataView_setUint32 in Eview. rewrite Hbuf in Eview.
    cbn [Nat.add Nat.ltb Nat.leb] in Eview. discriminate Eview. }
  rewrite bind_lift_inr, TS_bind_hmac. cbn [fst snd ret].
  eexists. eexists. split; [reflexivity|].
  cbn [key].
  change (slice (hmac_sha512 buf' (chainCode s)) 0 (Some 32))
    with (slice (hmac_sha512 buf' (chainCode s)) 0 (Some (Z.of_nat 32))).
  rewrite slice_first, length_firstn. lia.
Qed.

Lemma TS_for_of_returns (indices : list Z) (s : ExtendedKey) :
  (length (key s) <= 32)%nat ->
  exists s' calls,
    TS.for_of indices s (TS.loop_body hmac_sha512) = (inr s', calls).
Proof.
  revert s. induction indices as [|index rest IH]; intros s Hs;
    cbn [TS.for_of].
  - eexists. eexists. reflexivity.
  - destruct (TS_loop_body_returns index s Hs) as [s' [calls [E Hs']]].
    rewrite E. cbn [Eff.bind].
    destruct (IH s' Hs') as [s'' [calls' E']]. rewrite E'.
    eexists. eexists. reflexivity.
Qed.

Lemma JS_loop_body_returns (indices : list Z) (i : nat) (s : ExtendedKey) :
  exists s' calls, JS.loop_body hmac_sha512 indices i s = (inr s', calls).
Proof.
  unfold JS.loop_body.
  match goal with
  | |- context [lift (Uint8Array_set ?d ?k 1)] =>
      destruct (Uint8Array_set d k 1) as [e|data] eqn:Eset
  end.
  { unfold Uint8Array_set, Uint8Array_new in Eset.
    rewrite Uint8Array_store_length, repeat_length in Eset.
    replace (1 + length (key s) + 4 <? length (key s) + 1)%nat with false
      in Eset by (symmetry; apply Nat.ltb_ge; lia).
    discriminate Eset. }
  rewrite bind_lift_inr, JS_bind_hmacSha512. cbn [fst snd ret].
  eexists. eexists. reflexivity.
Qed.

Lemma JS_for_range_returns (indices : list Z) (count i : nat)
    (s : ExtendedKey) :
  exists s' calls,
    JS.for_range count i s (JS.loop_body hmac_sha512 indices)
    = (inr s', calls).
Proof.
  revert i s. induction count as [|count IH]; intros i s;
    cbn [JS.for_range].
  - eexists. eexists. reflexivity.
  - destruct (JS_loop_body_returns indices i s) as [s' [calls E]].
    rewrite E. cbn [Eff.bind].
    destruct (IH (i + 1)%nat s') as [s'' [calls' E']]. rewrite E'.
    eexists. eexists. reflexivity.
Qed.

(** [derivePath] fails only as [parsePath] does. *)
Lemma derivePath_result_cases (seed : bytes) (path : jsstring) :
  match TS.parsePath path with
  | inl e =>
      result (TS.derivePath hmac_sha512 seed path) = inl e
      /\ result (JS.derivePath hmac_sha512 seed path) = inl e
  | inr _ =>
      (exists r, result (TS.derivePath hmac_sha512 seed path) = inr r)
      /\ (exists r, result (JS.derivePath hmac_sha512 seed path) = inr r)
  end.
Proof.
  rewrite TS_derivePath_unfold, JS_derivePath_unfold, <- parsePath_ts_js.
  destruct (TS.parsePath path) as [e|indices]; [split; reflexivity|].
  cbv zeta. split.
  - destruct (TS_for_of_returns indices (Code.master hmac_sha512 seed))
      as [s' [calls E]].
    + unfold Code.master, Code.halves. cbn [key].
      rewrite length_firstn. lia.
    + rewrite E. eexists. reflexivity.
  - match goal with
    | |- context [JS.for_range ?n ?i ?s ?b] =>
        destruct (JS_for_range_returns indices n i s) as [s' [calls E]]
    end.
    rewrite E. eexists. reflexivity.
Qed.

End InBounds.

(** X11.  [derivePath] never raises a RangeError: on a path that parses it
    returns a pair, for any function in the place of HMAC-SHA512, even one
    whose digest is not 64 bytes long, since [buf.set(key, 1)] and
    [setUint32(33, ...)] always fit the buffer. *)
Theorem X11_derivePath_returns_when_path_parses
    (hmac_sha512 : bytes -> bytes -> bytes) (seed : bytes)
    (path : jsstring) (indices : list Z) :
  TS.parsePath path = inr indices ->
  (exists r, result (TS.derivePath hmac_sha512 seed path) = inr r)
  /\ (exists r, result (JS.derivePath hmac_sha512 seed path) = inr r)
  /\ result (TS.derivePath hmac_sha512 seed path) <> inl RangeError
  /\ result (JS.derivePath hmac_sha512 seed path) <> inl RangeError.
Proof.
  intros Hparse.
  pose proof (derivePath_result_cases hmac_sha512 seed path) as H.
  rewrite Hparse in H. destruct H as [[r Hr] [r' Hr']].
  split; [eauto|]. split; [eauto|].
  rewrite Hr, Hr'. split; discriminate.
Qed.

Lemma X11_derivePath_returns_when_path_parses_witness :
  exists r,
    result (TS.derivePath (fun _ _ => []) seed1 (js "m/0'")) = inr r.
Proof.
  assert (H : TS.parsePath (js "m/0'") = inr [0x80000000])
    by (vm_compute; reflexivity).
  exact (proj1 (X11_derivePath_returns_when_path_parses
                  (fun _ _ => []) seed1 _ _ H)).
Defined.

(** X12.  [derivePath] fails with InvalidPathFormat exactly when the path
    does not begin with a lowercase [m]: the empty string, ["M/0'"],
    [" m/0'"].  This check comes first: such a path gives this error
    whatever its segments are. *)
Theorem X12_format_error_iff
    (hmac_sha512 : bytes -> bytes -> bytes) (seed : bytes)
    (path : jsstring) :
  (result (TS.derivePath hmac_sha512 seed path) = inl InvalidPathFormat
   <-> hd_error path <> Some 0x6D)
  /\ (result (JS.derivePath hmac_sha512 seed path) = inl InvalidPathFormat
      <-> hd_error path <> Some 0x6D).
Proof.
  assert (Hm : startsWith path (js "m") = true <-> hd_error path = Some 0x6D).
  { destruct path as [|c path]; [split; discriminate|].
    unfold startsWith. cbn [length js map list_ascii_of_string firstn
                             code_units_eqb hd_error].
    change (Z.of_N (N_of_ascii "m")) with 0x6D.
    rewrite andb_true_r. rewrite Z.eqb_eq.
    split; [intros ->; reflexivity|intros [= ->]; reflexivity]. }
  pose proof (derivePath_result_cases hmac_sha512 seed path) as H.
  assert (Hparse : TS.parsePath path = inl InvalidPathFormat
                   <-> hd_error path <> Some 0x6D).
  { rewrite TS_parsePath_segments.
    destruct (startsWith path (js "m")) eqn:E.
    - split.
      + intros Hmap. destruct (Array_map_error _ _ _ Hmap) as [seg [_ Hs]].
        destruct (TS_parseSegment_error seg _ Hs) as [Habs _].
        discriminate Habs.
      + intros Hne. exfalso. apply Hne, Hm. reflexivity.
    - split; [|reflexivity]. intros _ Hhd. apply Hm in Hhd.
      discriminate Hhd. }
  destruct (TS.parsePath path) as [e|indices].
  - destruct H as [Hts Hjs]. rewrite Hts, Hjs.
    split; (split; [intros [= ->]; apply Hparse; reflexivity
                   |intros Hne; apply Hparse in Hne;
                    injection Hne as ->; reflexivity]).
  - destruct H as [[r Hr] [r' Hr']]. rewrite Hr, Hr'.
    split; (split; [discriminate
                   |intros Hne; apply Hparse in Hne; discriminate Hne]).
Qed.

(** ** What follows the number in a segment *)

Lemma takeDigits_prefix (digits junk : jsstring) :
  Forall (fun c => Spec.isDecimalDigit c = true) digits ->
  match junk with
  | c :: _ => Spec.isDecimalDigit c = false
  | [] => True
  end ->
  takeDigits 10 (digits ++ junk) = digits.
Proof.
  intros Hd Hjunk. induction Hd as [|c digits Hc _ IH]; cbn [app takeDigits].
  - destruct junk as [|c junk]; [reflexivity|]. cbn [takeDigits].
    rewrite isRadixDigit_10, Hjunk. reflexivity.
  - rewrite isRadixDigit_10, Hc, IH. reflexivity.
Qed.

(** X13.  Only the leading digits of a segment count: when a segment is
    made of decimal digits (denoting a value below 2^53) followed by
    anything that does not start with a digit, the rest is ignored without
    an error, and the index is 2^31 plus the value modulo 2^31. *)
Theorem X13_segment_tail_ignored (digits junk : jsstring) :
  Spec.nonNegativeDecimal digits = true ->
  digitsValue 10 digits < 2 ^ 53 ->
  match junk with
  | c :: _ => Spec.isDecimalDigit c = false
  | [] => True
  end ->
  TS.parseSegment (digits ++ junk)
  = inr (0x80000000 + digitsValue 10 digits mod 2 ^ 31)
  /\ JS.parseSegment (digits ++ junk)
     = inr (0x80000000 + digitsValue 10 digits mod 2 ^ 31).
Proof.
  intros Hdec Hsmall Hjunk.
  assert (Hall : Forall (fun c => Spec.isDecimalDigit c = true) digits).
  { unfold Spec.nonNegativeDecimal in Hdec.
    destruct digits; [discriminate Hdec|].
    apply Forall_forall. apply forallb_forall. exact Hdec. }
  assert (Hparse : parseInt (digits ++ junk) 10 = parseInt digits 10).
  { rewrite !parseInt_10. cbv zeta.
    destruct digits as [|c digits]; [discriminate Hdec|].
    assert (Hc : Spec.isDecimalDigit c = true)
      by (inversion Hall; assumption).
    cbn [app trimStart]. rewrite (decimal_digit_not_white c Hc).
    destruct ((c =? 0x2B) || (c =? 0x2D)) eqn:Esign.
    - exfalso. unfold Spec.isDecimalDigit in Hc. apply andb_prop in Hc.
      apply orb_prop in Esign.
      destruct Esign as [E|E]; apply Z.eqb_eq in E; lia.
    - change (c :: digits ++ junk) with ((c :: digits) ++ junk).
      rewrite (takeDigits_prefix _ _ Hall Hjunk), (takeDigits_all _ Hall).
      reflexivity. }
  rewrite <- parseSegment_ts_js.
  assert (H : TS.parseSegment (digits ++ junk)
              = inr (0x80000000 + digitsValue 10 digits mod 2 ^ 31)).
  { rewrite TS_parseSegment_spec, parseInt_stripHardening, Hparse.
    rewrite (parseInt_decimal _ Hdec Hsmall). cbn [ToUint32].
    rewrite lor_hardened_sum. reflexivity. }
  split; exact H.
Qed.

Lemma X13_segment_tail_ignored_witness :
  TS.parseSegment (js "44" ++ js "abc'")
  = inr (0x80000000 + digitsValue 10 (js "44") mod 2 ^ 31)
  /\ JS.parseSegment (js "44" ++ js "abc'")
     = inr (0x80000000 + digitsValue 10 (js "44") mod 2 ^ 31).
Proof.
  apply (X13_segment_tail_ignored (js "44") (js "abc'")).
  - reflexivity.
  - reflexivity.
  - reflexivity.
Defined.
